(** * styx: Prometheus range queries rendered as CSV and matplotlib scripts

    A shallow embedding of [prometheus.go] (the query clients, the resolution
    selector [steps] and the label canonicalizer [metricName]) and of the
    renderers ([csvWriter], [csvHeaderWriter], [matplotlibWriter],
    [matplotlibLegendWriter]).

    Conventions of the embedding:
    - a Go [string] is a [string] (a sequence of bytes); Go's [<] on strings
      is the byte-wise lexicographic order, here [String.ltb]/[String.le];
    - a Go [map[string]V] is a [gmap string V]; a [range] loop over a map
      visits the entries in an order chosen by the runtime, so every such
      loop takes the order visited as an explicit list and the theorems
      quantify over all the orders the runtime may choose;
    - [int] and [time.Duration] are 64-bit integers, written as [Z];
    - [float64] is IEEE-754 binary64, [spec_float] with [prec = 53] and
      [emax = 1024];
    - an [io.Writer] is the string of bytes written so far. *)

From Stdlib Require Import ZArith Lia Ascii String List DecimalString.
From Stdlib Require Import SpecFloat.
From Stdlib Require DecimalPos.
From stdpp Require Import gmap strings list fin_maps sorting.

Local Open Scope string_scope.
Local Open Scope Z_scope.

#[local] Set Warnings "-clear-no-such-hyp".

(** ** Strings *)

(** The double quote byte, written by its code. *)
Definition dquote : string := String (ascii_of_nat 34) EmptyString.

(** [append(s, x)] on slices. *)
Definition go_append {A} (s : list A) (x : A) : list A := (s ++ [x])%list.

(** [strings.Join(elems, sep)] *)
Definition Join (elems : list string) (sep : string) : string :=
  String.concat sep elems.

(** [sort.Slice(s, func(i, j int) bool { return s[i] < s[j] })] on a slice of
    strings.  The library promises a permutation of the slice in which no
    element is smaller than one before it; the order of strings is total and
    antisymmetric, so that permutation is unique ([sorted_perm_unique]
    below) and any sorting function computes it. *)
Definition sortStrings (s : list string) : list string :=
  merge_sort String.le s.

(** ** Ranging over a map *)

(** [range_order m l]: [l] is one of the orders in which [for k, v := range m]
    may visit the entries of [m]: each entry once, in any order. *)
Definition range_order {V} (m : gmap string V) (l : list (string * V)) : Prop :=
  l ≡ₚ map_to_list m.

(** ** prometheus.go: metricName *)

Module Canon.

(** The reserved key. *)
Definition name_key : string := "__name__".

(** [fmt.Sprintf(`%s="%s"`, key, value)] *)
Definition fragment (key value : string) : string :=
  key ++ "=" ++ dquote ++ value ++ dquote.

(** One iteration of the loop body: the state is [(out, inner)]. *)
Definition metricName_step (st : string * list string) (kv : string * string)
  : string * list string :=
  let '(out, inner) := st in
  let '(key, value) := kv in
  if String.eqb key name_key then (value, inner)
  else (out, go_append inner (fragment key value)).

(** The loop, over the entries in the order the runtime visits them. *)
Definition metricName_loop (visited : list (string * string))
  : string * list string :=
  fold_left metricName_step visited (EmptyString, []).

(** [metricName] when [range metric] visits the entries as [visited]. *)
Definition metricName_in (visited : list (string * string)) : string :=
  if (length visited =? 0)%nat then "{}"
  else
    let '(out, inner) := metricName_loop visited in
    if (length inner =? 0)%nat then out
    else out ++ "{" ++ Join (sortStrings inner) "," ++ "}".

(** [metricName] with the entries visited in the order of [map_to_list]. *)
Definition metricName (metric : gmap string string) : string :=
  metricName_in (map_to_list metric).

End Canon.

(** ** Numbers *)

(** [fmt.Sprintf("%d", n)] *)
Definition itoa (n : Z) : string := NilZero.string_of_int (Z.to_int n).

Definition minInt64 : Z := - 2 ^ 63.
Definition maxInt64 : Z := 2 ^ 63 - 1.
Definition inInt64 (z : Z) : bool := (minInt64 <=? z) && (z <=? maxInt64).

(** [float64]: IEEE-754 binary64 with round-to-nearest-even. *)
Module F64.

Definition prec : Z := 53.
Definition emax : Z := 1024.

Abbreviation float64 := spec_float.

(** [float64(z)] for an integer [z]: the nearest representable value. *)
Definition of_int (z : Z) : float64 := binary_normalize prec emax z 0 false.

Definition add (x y : float64) : float64 := SFadd prec emax x y.
Definition div (x y : float64) : float64 := SFdiv prec emax x y.

(** The integer part of a finite value (the fraction is discarded). *)
Definition trunc (f : float64) : option Z :=
  match f with
  | S754_zero _ => Some 0
  | S754_finite s m e =>
      Some (cond_Zopp s (if 0 <=? e then Z.pos m * 2 ^ e else Z.pos m / 2 ^ (- e)))
  | _ => None
  end.

(** [int(f)]: truncation toward zero.  When the integer part does not fit
    (or [f] is not finite) the language leaves the result to the
    implementation; amd64 gives the smallest integer. *)
Definition to_int (f : float64) : Z :=
  match trunc f with
  | Some z => if inInt64 z then z else minInt64
  | None => minInt64
  end.

(** The nearest integer to [m * 2^e], ties to the even one. *)
Definition round_half_even (m : positive) (e : Z) : Z :=
  if 0 <=? e then Z.pos m * 2 ^ e
  else
    let d := 2 ^ (- e) in
    let q := Z.pos m / d in
    let r := Z.pos m mod d in
    match 2 * r ?= d with
    | Lt => q
    | Gt => q + 1
    | Eq => if Z.even q then q else q + 1
    end.

Definition sign_string (s : bool) : string := if s then "-" else EmptyString.

(** [fmt.Sprintf("%.f", f)]: precision 0, so the decimal point and the
    fractional digits are left out and the value is rounded to an integer. *)
Definition format_f0 (f : float64) : string :=
  match f with
  | S754_nan => "NaN"
  | S754_infinity s => (if s then "-" else "+") ++ "Inf"
  | S754_zero s => sign_string s ++ "0"
  | S754_finite s m e => sign_string s ++ itoa (round_half_even m e)
  end.

(** The constant [4.2] as a [float64]: the nearest representable value,
    [0x10CCCCCCCCCCCD * 2^-50], slightly above 4.2 (see [c4_2_nearest]). *)
Definition c4_2 : float64 := S754_finite false 4728779608739021 (-50).

(** The constant [60*1e9] as a [float64]; the integer is represented
    exactly. *)
Definition c60e9 : float64 := of_int 60000000000.

End F64.

(** ** package time *)

Module time.

(** [time.Duration]: nanoseconds in an [int64]. *)
Definition Nanosecond : Z := 1.
Definition Second : Z := 1000000000 * Nanosecond.
Definition Minute : Z := 60 * Second.

(** [func (d Duration) Minutes() float64]:
    [min := d / Minute; nsec := d % Minute;
     return float64(min) + float64(nsec)/(60*1e9)]
    ([/] and [%] on integers truncate toward zero). *)
Definition Minutes (d : Z) : F64.float64 :=
  let min := Z.quot d Minute in
  let nsec := Z.rem d Minute in
  F64.add (F64.of_int min) (F64.div (F64.of_int nsec) F64.c60e9).

(** [time.Time], as far as the clients use it: the Unix time in seconds and
    the nanoseconds within the second. *)
Record Time := { Unix : Z; Nanos : Z }.

(** [t.Sub(u)]: the difference in nanoseconds, held at the largest or
    smallest [Duration] when it does not fit. *)
Definition Sub (t u : Time) : Z :=
  let d := (Unix t - Unix u) * Second + (Nanos t - Nanos u) in
  Z.max minInt64 (Z.min maxInt64 d).

End time.

(** ** prometheus.go: steps *)

Definition steps (step : Z) (dur : Z) : Z :=
  if 0 <? step then step
  else if dur <? 15 * time.Minute then 1
  else if dur <? 30 * time.Minute then 3
  else F64.to_int (F64.div (time.Minutes dur) F64.c4_2).

(** The policy in the words of the specification, over the rationals:
    [floor(duration_in_minutes / 4.2)] is the integer quotient of the
    duration by 4.2 minutes, that is by 252 seconds. *)
Definition steps_spec (step : Z) (dur : Z) : Z :=
  if 0 <? step then step
  else if dur <? 15 * time.Minute then 1
  else if dur <? 30 * time.Minute then 3
  else dur / (252 * time.Second).

(** ** prometheus.go: the response and the results *)

(** What [encoding/json] stores in an [interface{}]. *)
#[warnings="-register-all"]
Inductive jvalue : Type :=
| JNull
| JBool (b : bool)
| JNumber (f : F64.float64)
| JString (s : string)
| JArray (elems : list jvalue)
| JObject (fields : list (string * jvalue)).

(** One element of [promResponse.Data.Result]. *)
Record promSeries := {
  Metric_labels : gmap string string;   (* Metric map[string]string *)
  Values_pairs : list (list jvalue)     (* Values [][]interface{}   *)
}.

Record promResponse := {
  Status_field : string;
  ResultType : string;
  Result_list : list promSeries
}.

Record Result := {
  Metric : string;
  Values : gmap string string
}.

(** How a call ends: [return results, nil], [return nil, err], a run-time
    panic (a failed type assertion or an index out of range), or
    [log.Fatal], which exits the process. *)
Inductive outcome (E A : Type) : Type :=
| Ok (a : A)
| Err (e : E)
| Panic
| Fatal.
Arguments Ok {E A} a.
Arguments Err {E A} e.
Arguments Panic {E A}.
Arguments Fatal {E A}.

#[global] Instance outcome_bind {E} : MBind (outcome E) := fun A B k x =>
  match x with
  | Ok a => k a
  | Err e => Err e
  | Panic => Panic
  | Fatal => Fatal
  end.

(** The errors of the query clients, one constructor per [return nil, ...]
    statement, with what the statement puts in the error. *)
Inductive error : Type :=
| UrlParseError (msg : string)          (* from url.Parse *)
| TransportError (msg : string)         (* from client.Get / client.Do *)
| RequestFailed (msg : string)          (* fmt.Errorf("didn't return 200 OK but %s: %s") *)
| DecodeError (msg : string)            (* from json Decode *)
| UnsupportedResultType (msg : string)  (* fmt.Errorf("result type isn't of type matrix: %s") *)
| EmptyResult (msg : string).           (* fmt.Errorf(color.YellowString(...)) *)

(** The statement an error comes from, without its text. *)
Inductive error_kind : Type :=
| KUrlParse | KTransport | KRequestFailed | KDecode | KUnsupportedResultType | KEmptyResult.

Definition kind_of (e : error) : error_kind :=
  match e with
  | UrlParseError _ => KUrlParse
  | TransportError _ => KTransport
  | RequestFailed _ => KRequestFailed
  | DecodeError _ => KDecode
  | UnsupportedResultType _ => KUnsupportedResultType
  | EmptyResult _ => KEmptyResult
  end.

(** The body of the inner loop: [vals[0].(float64)], [vals[1].(string)] and
    the key [fmt.Sprintf("%.f", timestamp)]. *)
Definition sample (vals : list jvalue) : outcome error (string * string) :=
  match vals !! 0%nat with
  | Some (JNumber timestamp) =>
      match vals !! 1%nat with
      | Some (JString value) => Ok (F64.format_f0 timestamp, value)
      | _ => Panic
      end
  | _ => Panic
  end.

(** [values := make(map[string]string); for _, vals := range res.Values {...}] *)
Fixpoint samples_into (values : gmap string string) (pairs : list (list jvalue))
  : outcome error (gmap string string) :=
  match pairs with
  | [] => Ok values
  | vals :: rest =>
      kv ← sample vals;
      samples_into (<[kv.1 := kv.2]> values) rest
  end.

Definition samples (pairs : list (list jvalue)) : outcome error (gmap string string) :=
  samples_into ∅ pairs.

(** [for _, res := range resp.Data.Result { ... results = append(results, r) }].
    The source has this loop twice, word for word, once in [Query] and
    once in [IcpQuery].  [metricName] ranges over a map; by lemma
    [metricName_in_canonical] its result is the same for every order the
    runtime may choose. *)
Fixpoint results_into (results : list Result) (series : list promSeries)
  : outcome error (list Result) :=
  match series with
  | [] => Ok results
  | res :: rest =>
      values ← samples (Values_pairs res);
      let r := {| Metric := Canon.metricName (Metric_labels res); Values := values |} in
      results_into (go_append results r) rest
  end.

(** ** prometheus.go: the libraries and the outside world *)

(** [url.URL]: the path, the raw query, and everything else as parsed. *)
Record URL := { Base : string; Path : string; RawQuery : string }.

(** [http.Response], as far as the clients read it. *)
Record Response := { StatusCode : Z; Status : string; Body : string }.

(** The request handed to the transport. *)
Record Request := { req_url : string; Authorization : option string }.

(** What the clients call outside this package.  Each field is a library
    function or the outside world; a left result is the error's text. *)
Record World := {
  url_Parse : string -> string + URL;
  url_Query : string -> gmap string (list string);
  Values_Encode : gmap string (list string) -> string;
  URL_String : URL -> string;
  ReadFile : string -> string + string;
  NewRequest : string -> option string;
  RoundTrip : string -> Request -> string + Response;
  json_Decode : string -> string + promResponse;
  YellowString : string -> string
}.

(** The part common to both clients after [u.Path] is set: the query
    parameters. *)
Definition set_query (W : World) (u : URL) (start end_ : time.Time) (step : Z)
    (query : string) : URL :=
  let q := url_Query W (RawQuery u) in
  let q := <["query" := [query]]> q in
  let q := <["start" := [itoa (time.Unix start)]]> q in
  let q := <["end" := [itoa (time.Unix end_)]]> q in
  let q := <["step" := [itoa (steps step (time.Sub end_ start))]]> q in
  {| Base := Base u; Path := Path u; RawQuery := Values_Encode W q |}.

Definition with_path (u : URL) (p : string) : URL :=
  {| Base := Base u; Path := p; RawQuery := RawQuery u |}.

(** ** prometheus.go: Query *)

Definition Query_url (W : World) (u : URL) (start end_ : time.Time) (step : Z)
    (query : string) : URL :=
  set_query W (with_path u "api/v1/query_range") start end_ step query.

Definition Query (W : World) (host : string) (start end_ : time.Time) (step : Z)
    (query : string) : outcome error (list Result) :=
  match url_Parse W host with
  | inl err => Err (UrlParseError err)
  | inr u =>
    let u := Query_url W u start end_ step query in
    match ReadFile W "cert.crt" with
    | inl _ => Fatal
    | inr caCert =>
      (* client.Get builds the request itself and returns its error *)
      match NewRequest W (URL_String W u) with
      | Some err => Err (TransportError err)
      | None =>
        match RoundTrip W caCert
                {| req_url := URL_String W u; Authorization := None |} with
        | inl err => Err (TransportError err)
        | inr response =>
          if negb (StatusCode response =? 200) then
            Err (RequestFailed ("didn't return 200 OK but " ++ Status response
                                ++ ": " ++ URL_String W u))
          else
            match json_Decode W (Body response) with
            | inl err => Err (DecodeError err)
            | inr resp =>
              if negb (String.eqb (ResultType resp) "matrix") then
                Err (UnsupportedResultType
                       ("result type isn't of type matrix: " ++ ResultType resp))
              else if (length (Result_list resp) =? 0)%nat then
                Err (EmptyResult (YellowString W "no timeseries found"))
              else results_into [] (Result_list resp)
            end
        end
      end
    end
  end.

(** ** prometheus.go: IcpQuery *)

Definition IcpQuery_url (W : World) (u : URL) (start end_ : time.Time) (step : Z)
    (query : string) : URL :=
  set_query W (with_path u "prometheus/api/v1/query_range") start end_ step query.

Definition IcpQuery (W : World) (host token : string) (start end_ : time.Time)
    (step : Z) (query : string) : outcome error (list Result) :=
  match url_Parse W host with
  | inl err => Err (UrlParseError err)
  | inr u =>
    let u := IcpQuery_url W u start end_ step query in
    match ReadFile W "cert.crt" with
    | inl _ => Fatal
    | inr caCert =>
      match NewRequest W (URL_String W u) with
      | Some _ => Fatal
      | None =>
        match RoundTrip W caCert
                {| req_url := URL_String W u; Authorization := Some token |} with
        | inl err => Err (TransportError err)
        | inr response =>
          if negb (StatusCode response =? 200) then
            Err (RequestFailed ("didn't return 200 OK but " ++ Status response
                                ++ ": " ++ URL_String W u))
          else
            match json_Decode W (Body response) with
            | inl err => Err (DecodeError err)
            | inr resp =>
              if negb (String.eqb (ResultType resp) "matrix") then
                Err (UnsupportedResultType
                       ("result type isn't of type matrix: " ++ ResultType resp))
              else if (length (Result_list resp) =? 0)%nat then
                Err (EmptyResult (YellowString W "no timeseries found"))
              else results_into [] (Result_list resp)
            end
        end
      end
    end
  end.

(** ** package strconv *)

Module strconv.

Definition maxUint64 : Z := 2 ^ 64 - 1.

Definition digit_of (c : ascii) : option Z :=
  let n := Z.of_nat (nat_of_ascii c) in
  if (48 <=? n) && (n <=? 57) then Some (n - 48) else None.

(** The loop of [ParseUint(s, 10, 64)]: [None] is a syntax error; on
    overflow the loop stops at once with the largest value. *)
Fixpoint ParseUint_loop (n : Z) (s : string) : option Z :=
  match s with
  | EmptyString => Some n
  | String c rest =>
      match digit_of c with
      | None => None
      | Some d =>
          if maxUint64 <? 10 * n + d then Some maxUint64
          else ParseUint_loop (10 * n + d) rest
      end
  end.

Definition ParseUint (s : string) : option Z :=
  match s with
  | EmptyString => None
  | _ => ParseUint_loop 0 s
  end.

(** The integer [ParseInt(s, 10, 64)] returns; the callers here drop the
    error.  A syntax error gives 0, a value out of range the nearest
    [int64]. *)
Definition ParseInt (s : string) : Z :=
  match s with
  | EmptyString => 0
  | String c rest =>
      let neg := Ascii.eqb c "-" in
      let digits := if Ascii.eqb c "+" || Ascii.eqb c "-" then rest else s in
      match ParseUint digits with
      | None => 0
      | Some un =>
          let cutoff := 2 ^ 63 in
          if negb neg && (cutoff <=? un) then cutoff - 1
          else if neg && (cutoff <? un) then - cutoff
          else if neg then - un else un
      end
  end.

End strconv.

(** ** The renderers *)

(** An [io.Writer], as the bytes written to it so far; a write appends. *)
Definition Writer := string.

Definition newline : string := String (ascii_of_nat 10) EmptyString.

Definition Fprint (w : Writer) (s : string) : Writer := w ++ s.
Definition Fprintln (w : Writer) (s : string) : Writer := w ++ s ++ newline.

(** The orders chosen by the runtime for the [range] loops over maps in
    [csvWriter] and [matplotlibWriter]: the keys of each [result.Values] as
    visited by the first loop nest, and the keys of [timesMap] as visited by
    the second loop. *)
Record RangeOrders := {
  values_visits : list (list string);
  times_visit : list string
}.

(** [timesMap := make(map[string]bool)] and the first loop nest. *)
Definition timesMap_of (visits : list (list string)) : gmap string bool :=
  fold_left
    (fun timesMap keys => fold_left (fun timesMap tm => <[tm := true]> timesMap) keys timesMap)
    visits ∅.

(** [var times []string], the second loop and [sort.Slice]. *)
Definition times_of (visit : list string) : list string :=
  sortStrings (fold_left (fun times tm => go_append times tm) visit []).

(** The orders are ones the runtime may choose for [results]. *)
Definition valid_orders (results : list Result) (o : RangeOrders) : Prop :=
  Forall2 (fun result keys => keys ≡ₚ (map_to_list (Values result)).*1)
          results (values_visits o)
  ∧ times_visit o ≡ₚ (map_to_list (timesMap_of (values_visits o))).*1.

(** The orders of [map_to_list]. *)
Definition canonical_orders (results : list Result) : RangeOrders :=
  let visits := map (fun result => (map_to_list (Values result)).*1) results in
  {| values_visits := visits;
     times_visit := (map_to_list (timesMap_of visits)).*1 |}.

(** [result.Values[tm]]: the zero value when the key is missing. *)
Definition index_or_zero (values : gmap string string) (tm : string) : string :=
  default EmptyString (values !! tm).

(** [csvWriter]; [localString i64] stands for [time.Unix(i64, 0).String()],
    which depends on the time zone of the process. *)
Definition csvWriter_in (o : RangeOrders) (localString : Z -> string)
    (w : Writer) (results : list Result) : Writer * option error :=
  if (length results =? 0)%nat then (w, None)
  else
    let times := times_of (times_visit o) in
    let w :=
      fold_left
        (fun w tm =>
           let i64 := strconv.ParseInt tm in
           let uxdate := localString i64 in
           let w := Fprint w uxdate in
           let w := fold_left
                      (fun w result => Fprint w ("," ++ index_or_zero (Values result) tm))
                      results w in
           Fprintln w EmptyString)
        times w in
    (w, None).

Definition csvWriter (localString : Z -> string) (w : Writer) (results : list Result)
  : Writer * option error :=
  csvWriter_in (canonical_orders results) localString w results.

Definition csvHeaderWriter (w : Writer) (results : list Result) : Writer * option error :=
  if (length results =? 0)%nat then (w, None)
  else
    let header :=
      fold_left (fun header result => go_append header (Metric result)) results ["Time"] in
    (Fprintln w (Join header ","), None).

(** The body of [for i, result := range results] in [matplotlibWriter]. *)
Definition matplotlib_series (times : list string) (w : Writer) (i : nat) (result : Result)
  : Writer :=
  let vals :=
    fold_left
      (fun vals tm =>
         match Values result !! tm with
         | Some val => go_append vals val
         | None => go_append vals "None"
         end)
      times [] in
  let w := Fprint w ("s" ++ itoa (Z.of_nat i) ++ " = [" ++ Join vals ", " ++ "]" ++ newline) in
  Fprint w ("plot.plot(t, s" ++ itoa (Z.of_nat i) ++ ")" ++ newline).

Definition matplotlibWriter_in (o : RangeOrders) (w : Writer) (results : list Result)
  : Writer * option error :=
  if (length results =? 0)%nat then (w, None)
  else
    let times := times_of (times_visit o) in
    let w := Fprint w ("t = [" ++ Join times ", " ++ "]" ++ newline) in
    let w :=
      fold_left (fun w ir => matplotlib_series times w ir.1 ir.2) (imap pair results) w in
    (w, None).

Definition matplotlibWriter (w : Writer) (results : list Result) : Writer * option error :=
  matplotlibWriter_in (canonical_orders results) w results.

Definition matplotlibLegendWriter (w : Writer) (results : list Result)
  : Writer * option error :=
  let labels :=
    fold_left (fun labels result => go_append labels ("'" ++ Metric result ++ "'"))
              results [] in
  (Fprint w ("plot.legend([" ++ Join labels ", " ++ "], loc='upper left')" ++ newline), None).

(** ** The aligned grid, in the words of the specification *)

(** The union of the sample keys of all series. *)
Definition all_keys (results : list Result) : gset string :=
  ⋃ (map (fun result => dom (Values result)) results).

(** The timestamp axis: the union, without repetition, in ascending order
    of the keys as strings. *)
Definition axis (results : list Result) : list string :=
  sortStrings (elements (all_keys results)).

(** Strings written one after the other. *)
Definition concat_all (l : list string) : string := foldr String.append EmptyString l.

(** One cell of the grid: the sample, or the absence marker. *)
Definition cell (absent : string) (result : Result) (tm : string) : string :=
  default absent (Values result !! tm).

(** One row of the table: the rendered time, then a cell per series in the
    order of the series, with the empty field for a missing sample. *)
Definition csv_row (localString : Z -> string) (results : list Result) (tm : string)
  : string :=
  localString (strconv.ParseInt tm)
  ++ concat_all (map (fun result => "," ++ cell EmptyString result tm) results)
  ++ newline.

(** The two lines of one series of the plot: a cell per grid time, with
    [None] for a missing sample. *)
Definition plot_series (times : list string) (i : nat) (result : Result) : string :=
  "s" ++ itoa (Z.of_nat i) ++ " = ["
  ++ Join (map (cell "None" result) times) ", " ++ "]" ++ newline
  ++ "plot.plot(t, s" ++ itoa (Z.of_nat i) ++ ")" ++ newline.

(** ** The canonical name, in the words of the specification *)

Module CanonSpec.

(** The value of the reserved label, or the empty string. *)
Definition base (labels : gmap string string) : string :=
  default EmptyString (labels !! Canon.name_key).

(** The labels other than the reserved one. *)
Definition others (labels : gmap string string) : list (string * string) :=
  filter (fun kv => kv.1 ≠ Canon.name_key) (map_to_list labels).

(** The formatted fragments, sorted by their full string. *)
Definition fragments (labels : gmap string string) : list string :=
  sortStrings (map (fun kv => Canon.fragment kv.1 kv.2) (others labels)).

Definition canonicalize (labels : gmap string string) : string :=
  if decide (labels = ∅) then "{}"
  else if decide (others labels = []) then base labels
  else base labels ++ "{" ++ Join (fragments labels) "," ++ "}".

(** The two components of the loop state, each as a function of the
    entries visited. *)
Definition last_name (visited : list (string * string)) (out : string) : string :=
  fold_left (fun out kv => if String.eqb kv.1 Canon.name_key then kv.2 else out) visited out.

Definition other_fragments (visited : list (string * string)) : list string :=
  map (fun kv => Canon.fragment kv.1 kv.2) (filter (fun kv => kv.1 ≠ Canon.name_key) visited).

End CanonSpec.

(** ** Auxiliary definitions for the analysis of [steps] *)

(** A positive mantissa of exactly 53 bits. *)
Definition normal (m : positive) : Prop := 2 ^ 52 <= Z.pos m < 2 ^ 53.

(** The scale at which the values of the floating-point computation are
    compared as integers: every value met is a multiple of [2^-scaleK]. *)
Definition scaleK : Z := 100.

(** ** Data of the examples *)

Definition up_labels : gmap string string :=
  <["__name__" := "up"]> (<["job" := "api"]> (<["instance" := "h1"]> ∅)).

(** Two series with samples at [{10, 20}] and at [{20, 30}]. *)
Definition series_a : Result :=
  {| Metric := "a"; Values := <["10" := "1"]> (<["20" := "2"]> ∅) |}.
Definition series_b : Result :=
  {| Metric := "b"; Values := <["20" := "3"]> (<["30" := "4"]> ∅) |}.

(** One series with samples at the times 9 and 10. *)
Definition series_nine_ten : Result :=
  {| Metric := "c"; Values := <["9" := "x"]> (<["10" := "y"]> ∅) |}.

(** Orders other than those of [map_to_list] for the two series. *)
Definition reversed_orders : RangeOrders :=
  {| values_visits := [["20"; "10"]; ["30"; "20"]];
     times_visit := ["30"; "10"; "20"] |}.

(** A response of matrix type with one series of two samples. *)
Definition demo_response : promResponse :=
  {| Status_field := "success";
     ResultType := "matrix";
     Result_list :=
       [ {| Metric_labels := up_labels;
            Values_pairs := [ [JNumber (F64.of_int 10); JString "1"];
                              [JNumber (F64.of_int 20); JString "2"] ] |} ] |}.

(** A world in which every call succeeds and the server answers 200 with
    [demo_response]. *)
Definition demo_world : World :=
  {| url_Parse := fun host => inr {| Base := host; Path := EmptyString; RawQuery := EmptyString |};
     url_Query := fun _ => ∅;
     Values_Encode := fun _ => "query=up";
     URL_String := fun u => Base u ++ "/" ++ Path u ++ "?" ++ RawQuery u;
     ReadFile := fun _ => inr "pem";
     NewRequest := fun _ => None;
     RoundTrip := fun _ _ => inr {| StatusCode := 200; Status := "200 OK"; Body := "{}" |};
     json_Decode := fun _ => inr demo_response;
     YellowString := fun s => s |}.

(** The same world, but the host does not parse as a URL. *)
Definition bad_host_world : World :=
  {| url_Parse := fun _ => inl "missing protocol scheme";
     url_Query := url_Query demo_world;
     Values_Encode := Values_Encode demo_world;
     URL_String := URL_String demo_world;
     ReadFile := ReadFile demo_world;
     NewRequest := NewRequest demo_world;
     RoundTrip := RoundTrip demo_world;
     json_Decode := json_Decode demo_world;
     YellowString := YellowString demo_world |}.

(** The same world, but the connection is refused. *)
Definition offline_world : World :=
  {| url_Parse := url_Parse demo_world;
     url_Query := url_Query demo_world;
     Values_Encode := Values_Encode demo_world;
     URL_String := URL_String demo_world;
     ReadFile := ReadFile demo_world;
     NewRequest := NewRequest demo_world;
     RoundTrip := fun _ _ => inl "connection refused";
     json_Decode := json_Decode demo_world;
     YellowString := YellowString demo_world |}.

Definition epoch : time.Time := {| time.Unix := 0; time.Nanos := 0 |}.
Definition ten_minutes_later : time.Time := {| time.Unix := 600; time.Nanos := 0 |}.

(** ** Shapes of the entries of [values], and outcomes up to the error text *)


(** A number, then a string, then anything. *)
Definition starts_with_pair (vals : list jvalue) : Prop :=
  ∃ timestamp value rest, vals = JNumber timestamp :: JString value :: rest.

(** The samples of well-shaped entries, later entries replacing earlier
    ones with the same key. *)
Definition samples_of (entries : list (F64.float64 * string)) : gmap string string :=
  fold_left (fun values tv => <[F64.format_f0 tv.1 := tv.2]> values) entries ∅.

Definition entry_of (tv : F64.float64 * string) : list jvalue :=
  [JNumber tv.1; JString tv.2].

(** The handling of a response in the words of the specification: a
    status other than 200, a body that does not decode, a result type
    other than matrix and an empty list of series are errors, in this
    order; otherwise there is one series per result. *)
Definition handle_response (W : World) (url : string) (response : Response)
  : outcome error (list Result) :=
  if decide (StatusCode response ≠ 200) then
    Err (RequestFailed ("didn't return 200 OK but " ++ Status response ++ ": " ++ url))
  else
    match json_Decode W (Body response) with
    | inl msg => Err (DecodeError msg)
    | inr resp =>
        if decide (ResultType resp ≠ "matrix") then
          Err (UnsupportedResultType ("result type isn't of type matrix: " ++ ResultType resp))
        else if decide (Result_list resp = []) then
          Err (EmptyResult (YellowString W "no timeseries found"))
        else results_into [] (Result_list resp)
    end.

(** An outcome with the text of the error dropped. *)
Definition classify {A} (x : outcome error A) : outcome error_kind A :=
  match x with
  | Ok a => Ok a
  | Err e => Err (kind_of e)
  | Panic => Panic
  | Fatal => Fatal
  end.

(** A display name between single quotes, as the legend has it. *)
Definition quoted (name : string) : string := "'" ++ name ++ "'".


(** * Theorems *)

(** ** Sorting strings *)

Section sorting.

Lemma sortStrings_sorted (s : list string) : Sorted String.le (sortStrings s).
Proof. apply (Sorted_merge_sort String.le). Qed.

Lemma sortStrings_permutation (s : list string) : sortStrings s ≡ₚ s.
Proof. apply (merge_sort_Permutation String.le). Qed.

(** At most one ordering of a slice of strings is sorted, which is why the
    result of [sort.Slice] does not depend on the algorithm. *)
Lemma sorted_perm_unique (s1 s2 : list string) :
  Sorted String.le s1 -> Sorted String.le s2 -> s1 ≡ₚ s2 -> s1 = s2.
Proof. apply (Sorted_unique String.le). Qed.

Lemma sortStrings_proper (s1 s2 : list string) :
  s1 ≡ₚ s2 -> sortStrings s1 = sortStrings s2.
Proof.
  intros Hperm. apply sorted_perm_unique; try apply sortStrings_sorted.
  by rewrite !sortStrings_permutation.
Qed.

Lemma sortStrings_elem_of (s : list string) (x : string) :
  x ∈ sortStrings s <-> x ∈ s.
Proof. by rewrite sortStrings_permutation. Qed.

End sorting.

(** ** metricName *)

Section canon_facts.
Import Canon CanonSpec.

Lemma metricName_loop_from visited out inner :
  fold_left metricName_step visited (out, inner)
  = (last_name visited out, (inner ++ other_fragments visited)%list).
Proof.
  revert out inner. induction visited as [|[key value] visited IH]; intros out inner.
  - cbn. by rewrite app_nil_r.
  - cbn [fold_left metricName_step]. unfold other_fragments, last_name.
    cbn [fold_left fst snd]. rewrite filter_cons. cbn [fst].
    destruct (String.eqb_spec key name_key) as [->|Hne].
    + rewrite IH. rewrite decide_False by (intros H; by apply H). done.
    + rewrite IH. rewrite decide_True by done. unfold go_append.
      cbn [map fst snd]. by rewrite <- app_assoc.
Qed.

Lemma metricName_loop_spec visited :
  metricName_loop visited = (last_name visited EmptyString, other_fragments visited).
Proof. unfold metricName_loop. by rewrite metricName_loop_from. Qed.

Lemma last_name_absent visited out :
  name_key ∉ visited.*1 -> last_name visited out = out.
Proof.
  revert out. induction visited as [|[key value] visited IH]; intros out Hnotin; [done|].
  unfold last_name. cbn [fold_left fst snd].
  rewrite fmap_cons, not_elem_of_cons in Hnotin. destruct Hnotin as [Hne Hnotin].
  destruct (String.eqb_spec key name_key) as [->|_]; [done|].
  by apply IH.
Qed.

Lemma last_name_lookup visited out :
  NoDup visited.*1 ->
  last_name visited out
  = default out ((list_to_map visited : gmap string string) !! name_key).
Proof.
  revert out. induction visited as [|[key value] visited IH]; intros out Hnd; [done|].
  rewrite fmap_cons, NoDup_cons in Hnd. destruct Hnd as [Hnotin Hnd].
  unfold last_name. cbn [fold_left fst snd list_to_map foldr uncurry].
  destruct (String.eqb_spec key name_key) as [->|Hne].
  - rewrite lookup_insert_eq. cbn. by apply last_name_absent.
  - rewrite lookup_insert_ne by done. by apply IH.
Qed.

Lemma range_order_NoDup {V} (m : gmap string V) l :
  range_order m l -> NoDup l.*1.
Proof. intros ->. apply NoDup_fst_map_to_list. Qed.

Lemma range_order_to_map {V} (m : gmap string V) l :
  range_order m l -> list_to_map l = m.
Proof.
  intros Hl. rewrite <- (list_to_map_to_list m).
  apply list_to_map_proper; [by eapply range_order_NoDup|done].
Qed.

(** A decidable way to recognise an order the runtime may choose. *)
Lemma range_order_intro {V} (m : gmap string V) l :
  NoDup l.*1 -> list_to_map l = m -> range_order m l.
Proof.
  intros Hnd <-. unfold range_order. symmetry. by apply map_to_list_to_map.
Qed.

Lemma range_order_length {V} (m : gmap string V) l :
  range_order m l -> (length l = 0)%nat <-> m = ∅.
Proof.
  intros Hl. rewrite <- map_to_list_empty_iff. unfold range_order in Hl.
  split.
  - intros Hlen. destruct l; [|done]. by apply Permutation_nil in Hl.
  - intros Hnil. rewrite Hnil in Hl. apply Permutation_nil_r in Hl. by subst.
Qed.

(** Whatever order the runtime chooses, the loop computes the canonical
    name of the specification. *)
Lemma metricName_in_canonical (m : gmap string string) l :
  range_order m l -> metricName_in l = canonicalize m.
Proof.
  intros Hl. unfold metricName_in, canonicalize.
  pose proof (range_order_length m l Hl) as Hlen.
  destruct (Nat.eqb_spec (length l) 0) as [H0|H0].
  { rewrite decide_True by (by apply Hlen). done. }
  rewrite decide_False by (intros Hm; by apply H0, Hlen).
  rewrite metricName_loop_spec.
  rewrite last_name_lookup by (by eapply range_order_NoDup).
  rewrite (range_order_to_map m l Hl). fold (base m).
  assert (other_fragments l ≡ₚ map (fun kv => fragment kv.1 kv.2) (others m)) as Hperm.
  { unfold other_fragments, others. unfold range_order in Hl. by rewrite Hl. }
  destruct (decide (others m = [])) as [Hnil|Hcons].
  - rewrite Hnil in Hperm. apply Permutation_nil_r in Hperm. by rewrite Hperm.
  - destruct (Nat.eqb_spec (length (other_fragments l)) 0) as [Hz|Hz].
    + apply nil_length_inv in Hz. rewrite Hz in Hperm. symmetry in Hperm.
      apply Permutation_nil_r in Hperm. apply fmap_nil_inv in Hperm. done.
    + unfold fragments. by rewrite (sortStrings_proper _ _ Hperm).
Qed.

End canon_facts.

Section canon_claims.
Import Canon CanonSpec.

(** C2: the display name does not depend on the order in which the labels
    are visited.  For any two orders in which the runtime may range over
    the same label set, [metricName] returns the same string; it is the
    base name followed by the fragments [key="value"] of the other labels,
    sorted by their full string and joined by commas. *)
Theorem metricName_order_irrelevant (m : gmap string string)
    (l1 l2 : list (string * string)) :
  range_order m l1 -> range_order m l2 ->
  metricName_in l1 = metricName_in l2
  ∧ metricName_in l1 = canonicalize m
  ∧ Sorted String.le (fragments m)
  ∧ fragments m ≡ₚ map (fun kv => fragment kv.1 kv.2) (others m).
Proof.
  intros H1 H2. split_and!.
  - by rewrite (metricName_in_canonical m l1), (metricName_in_canonical m l2).
  - by apply metricName_in_canonical.
  - apply sortStrings_sorted.
  - apply sortStrings_permutation.
Qed.

Lemma metricName_order_irrelevant_witness :
  metricName_in [("job", "api"); ("__name__", "up"); ("instance", "h1")]
  = metricName_in [("instance", "h1"); ("job", "api"); ("__name__", "up")]
  ∧ metricName_in [("job", "api"); ("__name__", "up"); ("instance", "h1")]
    = "up{instance=" ++ dquote ++ "h1" ++ dquote ++ ",job=" ++ dquote ++ "api" ++ dquote ++ "}".
Proof.
  assert (range_order up_labels [("job", "api"); ("__name__", "up"); ("instance", "h1")]) as H1.
  { apply range_order_intro; apply (bool_decide_unpack _); vm_compute; reflexivity. }
  assert (range_order up_labels [("instance", "h1"); ("job", "api"); ("__name__", "up")]) as H2.
  { apply range_order_intro; apply (bool_decide_unpack _); vm_compute; reflexivity. }
  destruct (metricName_order_irrelevant up_labels _ _ H1 H2) as (Heq & Hcanon & _).
  split; [exact Heq|]. rewrite Hcanon. vm_compute. reflexivity.
Defined.

Lemma metricName_canonical (m : gmap string string) :
  metricName m = canonicalize m.
Proof. apply metricName_in_canonical. by unfold range_order. Qed.

Lemma others_nil_inv (m : gmap string string) k v :
  others m = [] -> m !! k = Some v -> k = name_key.
Proof.
  intros Hnil Hkv. destruct (decide (k = name_key)) as [|Hne]; [done|].
  assert ((k, v) ∈ others m) as Hin.
  { unfold others. apply list_elem_of_filter. split; [done|].
    by apply elem_of_map_to_list. }
  rewrite Hnil in Hin. by apply elem_of_nil in Hin.
Qed.

Lemma append_brace_nonempty (s t : string) : s ++ "{" ++ t ≠ EmptyString.
Proof. by destruct s. Qed.

(** C6, the claim as it stands fails: the label set that holds only the
    reserved key, with the empty string as its value, has the empty
    string as canonical name, and it does contain the reserved key. *)
Lemma empty_name_counterexample :
  metricName {[ name_key := EmptyString ]} = EmptyString
  ∧ ({[ name_key := EmptyString ]} : gmap string string) !! name_key = Some EmptyString
  ∧ metricName ∅ = "{}".
Proof. split_and!; vm_compute; reflexivity. Qed.

(** C6, amended: the canonical name is the empty string exactly when the
    label set consists of the reserved key alone, with the empty string as
    its value.  (The empty label set gives ["{}"], and any other label
    makes the name contain a brace.) *)
Theorem metricName_empty_iff (m : gmap string string) :
  metricName m = EmptyString <-> m = {[ name_key := EmptyString ]}.
Proof.
  split; [|intros ->; vm_compute; reflexivity].
  rewrite metricName_canonical. unfold canonicalize.
  destruct (decide (m = ∅)) as [|Hne]; [done|].
  destruct (decide (others m = [])) as [Hnil|_];
    [|intros H; by apply append_brace_nonempty in H].
  intros Hbase. apply map_eq. intros k.
  destruct (decide (k = name_key)) as [->|Hk].
  - rewrite lookup_singleton_eq.
    destruct (m !! name_key) as [v|] eqn:Hname.
    + unfold base in Hbase. rewrite Hname in Hbase. cbn in Hbase. by subst.
    + exfalso. apply Hne. apply map_eq. intros k'. rewrite lookup_empty.
      destruct (m !! k') as [v'|] eqn:Hk'; [|done].
      pose proof (others_nil_inv m k' v' Hnil Hk') as ->. congruence.
  - rewrite lookup_singleton_ne by done.
    destruct (m !! k) as [v|] eqn:Hkv; [|done].
    by pose proof (others_nil_inv m k v Hnil Hkv).
Qed.

End canon_claims.

(** ** float64 arithmetic on normal numbers *)

Section float_facts.
Import F64.

Lemma digits2_pos_size p : digits2_pos p = Pos.size p.
Proof. induction p; simpl; congruence. Qed.

Lemma digits_log2 p : Z.pos (digits2_pos p) = Z.log2 (Z.pos p) + 1.
Proof.
  rewrite digits2_pos_size. destruct p; simpl; try lia.
Qed.

Lemma digits_bounds p :
  2 ^ (Z.pos (digits2_pos p) - 1) <= Z.pos p < 2 ^ Z.pos (digits2_pos p).
Proof.
  rewrite digits_log2. replace (Z.log2 (Z.pos p) + 1 - 1) with (Z.log2 (Z.pos p)) by lia.
  change (Z.log2 (Z.pos p) + 1) with (Z.succ (Z.log2 (Z.pos p))).
  apply Z.log2_spec. lia.
Qed.

Lemma digits_unique p d :
  2 ^ (d - 1) <= Z.pos p < 2 ^ d -> Z.pos (digits2_pos p) = d.
Proof.
  intros [Hlo Hhi]. rewrite digits_log2.
  assert (0 < d) as Hd.
  { destruct (Z_lt_le_dec 0 d) as [|Hle]; [lia|].
    assert (2 ^ d <= 1); [|lia].
    destruct (Z.eq_dec d 0) as [->|]; [simpl; lia|].
    rewrite Z.pow_neg_r by lia. lia. }
  assert (Z.log2 (Z.pos p) = d - 1) as ->; [|lia].
  apply Z.log2_unique; [lia|]. replace (Z.succ (d - 1)) with d by lia. lia.
Qed.

Lemma shr_1_m r : 0 <= shr_m r -> shr_m (shr_1 r) = shr_m r / 2.
Proof.
  destruct r as [m rb sb]. cbn [shr_m]. intros Hm.
  destruct m as [|[q|q|]|q]; cbn [shr_1 shr_m]; [reflexivity| | |reflexivity|lia].
  - apply (Z.div_unique _ _ _ 1); lia.
  - apply (Z.div_unique _ _ _ 0); lia.
Qed.

Lemma iter_pos_shr_m p r :
  0 <= shr_m r -> shr_m (SpecFloat.iter_pos shr_1 p r) = shr_m r / 2 ^ Z.pos p.
Proof.
  revert r. induction p as [p IH|p IH|]; intros r Hr; simpl SpecFloat.iter_pos.
  - assert (0 <= shr_m (shr_1 r)) as H1 by (rewrite shr_1_m by done; apply Z.div_pos; lia).
    assert (0 <= shr_m (SpecFloat.iter_pos shr_1 p (shr_1 r))) as H2
      by (rewrite IH by done; apply Z.div_pos; lia).
    rewrite IH, IH, shr_1_m by done.
    rewrite !Z.div_div by lia. f_equal.
    rewrite Pos2Z.inj_xI, <- !Z.pow_add_r, <- (Z.pow_1_r 2) at 1 by lia.
    rewrite <- !Z.pow_add_r by lia. f_equal. lia.
  - assert (0 <= shr_m (SpecFloat.iter_pos shr_1 p r)) as H2
      by (rewrite IH by done; apply Z.div_pos; lia).
    rewrite IH, IH by done.
    rewrite !Z.div_div by lia. f_equal.
    rewrite Pos2Z.inj_xO, <- !Z.pow_add_r by lia. f_equal. lia.
  - rewrite shr_1_m by done. done.
Qed.

Lemma shr_record_of_loc_m m l : shr_m (shr_record_of_loc m l) = m.
Proof. by destruct l as [|[]]. Qed.

Lemma shr_spec m l e n :
  0 <= m -> 0 <= n ->
  shr_m (shr (shr_record_of_loc m l) e n).1 = m / 2 ^ n
  ∧ (shr (shr_record_of_loc m l) e n).2 = e + n.
Proof.
  intros Hm Hn. destruct n as [|n|n]; simpl; [| |lia].
  - rewrite shr_record_of_loc_m, Z.div_1_r. split; [done|lia].
  - rewrite iter_pos_shr_m by (by rewrite shr_record_of_loc_m).
    by rewrite shr_record_of_loc_m.
Qed.

Lemma fexp_normal x : -1074 <= x - 53 -> fexp prec emax x = x - 53.
Proof. unfold fexp, emin, prec, emax. lia. Qed.

Lemma round_nearest_even_cases m l :
  round_nearest_even m l = m ∨ round_nearest_even m l = m + 1.
Proof. destruct l as [|[]]; simpl; auto. destruct (Z.even m); auto. Qed.

Lemma pow2_split a b : 0 <= a -> 0 <= b -> 2 ^ (a + b) = 2 ^ a * 2 ^ b.
Proof. intros. by rewrite Z.pow_add_r. Qed.

Lemma div_pow2_bounds P d k :
  0 <= k -> k <= d ->
  2 ^ (d - 1) <= P < 2 ^ d -> k < d ->
  2 ^ (d - k - 1) <= P / 2 ^ k < 2 ^ (d - k).
Proof.
  intros Hk Hkd [Hlo Hhi] Hlt.
  assert (0 < 2 ^ k) as Hpos by (apply Z.pow_pos_nonneg; lia).
  split.
  - apply Z.div_le_lower_bound; [done|].
    replace (d - 1) with (k + (d - k - 1)) in Hlo by lia.
    rewrite pow2_split in Hlo by lia. lia.
  - apply Z.div_lt_upper_bound; [done|].
    replace d with (k + (d - k)) in Hhi at 1 by lia.
    rewrite pow2_split in Hhi by lia. lia.
Qed.

Lemma shr_fexp_spec (p : positive) (e : Z) (l : location) :
  let d := Z.pos (digits2_pos p) in
  53 <= d -> -1074 <= e + d - 53 ->
  shr_m (shr_fexp prec emax (Z.pos p) e l).1 = Z.pos p / 2 ^ (d - 53)
  ∧ (shr_fexp prec emax (Z.pos p) e l).2 = e + (d - 53).
Proof.
  intros d Hd Hlo. unfold shr_fexp. cbn [Zdigits2]. fold d.
  rewrite fexp_normal by lia.
  replace (d + e - 53 - e) with (d - 53) by lia.
  apply shr_spec; lia.
Qed.

Lemma binary_round_aux_normal (p : positive) (ex : Z) (lx : location) :
  let d := Z.pos (digits2_pos p) in
  53 <= d -> -1074 <= ex + d - 53 -> ex + d - 52 <= 971 ->
  ∃ m e,
    binary_round_aux prec emax false (Z.pos p) ex lx = S754_finite false m e
    ∧ 2 ^ 52 <= Z.pos m < 2 ^ 53
    ∧ ((e = ex + d - 53
        ∧ (Z.pos m = Z.pos p / 2 ^ (d - 53) ∨ Z.pos m = Z.pos p / 2 ^ (d - 53) + 1))
       ∨ (e = ex + d - 52 ∧ Z.pos m = 2 ^ 52 ∧ Z.pos p / 2 ^ (d - 53) + 1 = 2 ^ 53)).
Proof.
  intros d Hd Hlo Hhi. unfold binary_round_aux.
  destruct (shr_fexp_spec p ex lx Hd Hlo) as [Hm1 He1]. fold d in Hm1, He1.
  destruct (shr_fexp prec emax (Z.pos p) ex lx) as [mrs' e'].
  cbn [fst snd] in Hm1, He1.
  pose proof (digits_bounds p) as Hp. fold d in Hp.
  pose proof (div_pow2_bounds (Z.pos p) d (d - 53) ltac:(lia) ltac:(lia) Hp ltac:(lia)) as Hb.
  replace (d - (d - 53) - 1) with 52 in Hb by lia.
  replace (d - (d - 53)) with 53 in Hb by lia.
  rewrite <- Hm1 in Hb.
  set (m2 := round_nearest_even (shr_m mrs') (loc_of_shr_record mrs')).
  assert (m2 = shr_m mrs' ∨ m2 = shr_m mrs' + 1) as Hm2 by apply round_nearest_even_cases.
  assert (0 < m2) as Hm2pos by lia.
  destruct m2 as [|p2|p2] eqn:Hp2; [lia| |lia].
  destruct (Z_lt_le_dec (Z.pos p2) (2 ^ 53)) as [Hsmall|Hbig].
  - (* the rounded mantissa still has 53 bits *)
    assert (Z.pos (digits2_pos p2) = 53) as Hd2 by (apply digits_unique; lia).
    destruct (shr_fexp_spec p2 e' loc_Exact ltac:(lia) ltac:(lia)) as [Hm3 He3].
    rewrite Hd2 in Hm3, He3. replace (53 - 53) with 0 in * by lia.
    rewrite Z.pow_0_r, Z.div_1_r in Hm3.
    destruct (shr_fexp prec emax (Z.pos p2) e' loc_Exact) as [mrs'' e''].
    cbn [fst snd] in Hm3, He3. rewrite Hm3.
    assert ((e'' <=? emax - prec) = true) as -> by (apply Z.leb_le; unfold emax, prec; lia).
    exists p2, e''. split; [done|]. split; [lia|]. left. split; [lia|].
    rewrite <- Hm1. lia.
  - (* rounding carried into a 54th bit *)
    assert (Z.pos p2 = 2 ^ 53) as Hp2' by lia.
    assert (Z.pos (digits2_pos p2) = 54) as Hd2 by (apply digits_unique; lia).
    destruct (shr_fexp_spec p2 e' loc_Exact ltac:(lia) ltac:(lia)) as [Hm3 He3].
    rewrite Hd2 in Hm3, He3. replace (54 - 53) with 1 in * by lia.
    assert (Z.pos p2 / 2 ^ 1 = Z.pos (Pos.pow 2 52)) as Hhalf by (by rewrite Hp2').
    rewrite Hhalf in Hm3.
    destruct (shr_fexp prec emax (Z.pos p2) e' loc_Exact) as [mrs'' e''].
    cbn [fst snd] in Hm3, He3. rewrite Hm3.
    assert ((e'' <=? emax - prec) = true) as -> by (apply Z.leb_le; unfold emax, prec; lia).
    exists (Pos.pow 2 52), e''. split; [done|]. split; [lia|]. right.
    split; [lia|]. split; [done|]. rewrite <- Hm1. lia.
Qed.

Lemma binary_round_aux_value (p : positive) (ex : Z) (lx : location) :
  let d := Z.pos (digits2_pos p) in
  53 <= d -> -1074 <= ex + d - 53 -> ex + d - 52 <= 971 ->
  ∃ m e,
    binary_round_aux prec emax false (Z.pos p) ex lx = S754_finite false m e
    ∧ normal m
    ∧ ex + d - 53 <= e <= ex + d - 52
    ∧ 2 ^ 52 * Z.abs (Z.pos m * 2 ^ (e - ex) - Z.pos p) <= Z.pos p.
Proof.
  intros d Hd Hlo Hhi.
  destruct (binary_round_aux_normal p ex lx Hd Hlo Hhi) as (m & e & Heq & Hn & Hcases).
  fold d in Hcases. exists m, e. split; [done|]. split; [done|].
  pose proof (digits_bounds p) as Hp. fold d in Hp.
  set (n := d - 53) in *.
  assert (0 < 2 ^ n) as Hpow by (apply Z.pow_pos_nonneg; lia).
  assert (2 ^ (d - 1) = 2 ^ 52 * 2 ^ n) as Hsplit.
  { rewrite <- pow2_split by lia. f_equal. lia. }
  pose proof (Z.div_mod (Z.pos p) (2 ^ n) ltac:(lia)) as Hdm.
  pose proof (Z.mod_pos_bound (Z.pos p) (2 ^ n) Hpow) as Hmod.
  destruct Hcases as [[-> Hm]|(-> & Hm & Hcarry)].
  - split; [lia|]. replace (ex + d - 53 - ex) with n by lia.
    destruct Hm as [-> | ->]; nia.
  - split; [lia|]. replace (ex + d - 52 - ex) with (n + 1) by lia.
    rewrite pow2_split, Z.pow_1_r by lia. rewrite Hm. nia.
Qed.

Lemma binary_round_aux_exact (p : positive) (e : Z) :
  normal p -> -1074 <= e <= 971 ->
  binary_round_aux prec emax false (Z.pos p) e loc_Exact = S754_finite false p e.
Proof.
  intros Hn He.
  assert (Z.pos (digits2_pos p) = 53) as Hd by (by apply digits_unique).
  unfold binary_round_aux, shr_fexp. cbn [Zdigits2]. rewrite Hd.
  rewrite fexp_normal by lia. replace (53 + e - 53 - e) with 0 by lia.
  cbn [shr shr_record_of_loc shr_m loc_of_shr_record round_nearest_even Zdigits2].
  rewrite Hd. rewrite fexp_normal by lia. replace (53 + e - 53 - e) with 0 by lia.
  cbn [shr shr_record_of_loc shr_m].
  assert ((e <=? emax - prec) = true) as -> by (apply Z.leb_le; unfold emax, prec; lia).
  done.
Qed.

Lemma pos_iter_xO p k : Z.pos (Pos.iter xO p k) = Z.pos p * 2 ^ Z.pos k.
Proof.
  induction k as [|k IH] using Pos.peano_ind.
  - cbn [Pos.iter]. lia.
  - rewrite Pos.iter_succ, Pos2Z.inj_xO, IH, Pos2Z.inj_succ, Z.pow_succ_r by lia. lia.
Qed.

Lemma of_int_pos (z : Z) :
  0 < z < 2 ^ 53 ->
  ∃ m e, of_int z = S754_finite false m e ∧ normal m
         ∧ e = Z.log2 z - 52 ∧ Z.pos m = z * 2 ^ (- e).
Proof.
  intros Hz. destruct z as [|p|p]; [lia| |lia].
  unfold of_int, binary_normalize, binary_round.
  pose proof (digits_bounds p) as Hp. pose proof (digits_log2 p) as Hlog.
  set (d := Z.pos (digits2_pos p)) in *.
  assert (1 <= d <= 53) as Hd.
  { split; [unfold d; lia|]. destruct (Z_le_gt_dec d 53) as [|Hgt]; [done|].
    assert (2 ^ 53 <= 2 ^ (d - 1)) by (apply Z.pow_le_mono_r; lia). lia. }
  rewrite fexp_normal by lia. unfold shl_align.
  replace (d + 0 - 53 - 0) with (d - 53) by lia.
  destruct (d - 53) as [|k|k] eqn:Hk; [|lia|].
  - assert (d = 53) as Hd53 by lia. rewrite Hd53 in *.
    rewrite binary_round_aux_exact by (unfold normal; lia).
    exists p, 0. split; [done|]. split; [unfold normal; lia|]. split; [lia|].
    cbn. lia.
  - assert (Z.pos k = 53 - d) as Hk' by lia.
    assert (normal (Pos.iter xO p k)) as Hn.
    { unfold normal. rewrite pos_iter_xO, Hk'.
      assert (2 ^ 52 = 2 ^ (d - 1) * 2 ^ (53 - d)) as ->
        by (rewrite <- pow2_split by lia; f_equal; lia).
      assert (2 ^ 53 = 2 ^ d * 2 ^ (53 - d)) as ->
        by (rewrite <- pow2_split by lia; f_equal; lia).
      assert (0 < 2 ^ (53 - d)) by (apply Z.pow_pos_nonneg; lia). nia. }
    replace (d + 0 - 53) with (Z.neg k) by lia.
    rewrite binary_round_aux_exact by (done || lia).
    eexists _, _. split; [done|]. split; [done|]. split; [lia|].
    rewrite pos_iter_xO. reflexivity.
Qed.

Lemma div_eucl_div_mod a b : Z.div_eucl a b = (a / b, a mod b).
Proof. unfold Z.div, Z.modulo. by destruct (Z.div_eucl a b). Qed.

Lemma normal_digits m : normal m -> Z.pos (digits2_pos m) = 53.
Proof. intros. by apply digits_unique. Qed.

Lemma div_normal mx ex my ey :
  normal mx -> normal my -> -1074 <= ex - ey - 53 -> ex - ey - 51 <= 971 ->
  ∃ m e,
    div (S754_finite false mx ex) (S754_finite false my ey) = S754_finite false m e
    ∧ normal m
    ∧ ex - ey - 53 <= e <= ex - ey - 51
    ∧ 2 ^ 52 * Z.abs (Z.pos m * 2 ^ (e - (ex - ey - 53)) - Z.pos mx * 2 ^ 53 / Z.pos my)
      <= Z.pos mx * 2 ^ 53 / Z.pos my.
Proof.
  intros Hx Hy Hlo Hhi.
  unfold div, SFdiv, SFdiv_core_binary. cbn [xorb Zdigits2].
  rewrite (normal_digits mx Hx), (normal_digits my Hy).
  rewrite fexp_normal by lia.
  replace (Z.min (53 + ex - (53 + ey) - 53) (ex - ey)) with (ex - ey - 53) by lia.
  replace (ex - ey - (ex - ey - 53)) with 53 by lia.
  rewrite Z.shiftl_mul_pow2 by lia.
  rewrite div_eucl_div_mod.
  set (q := Z.pos mx * 2 ^ 53 / Z.pos my).
  unfold normal in Hx, Hy.
  assert (2 ^ 52 <= q < 2 ^ 54) as Hq.
  { unfold q. split.
    - apply Z.div_le_lower_bound; [lia|]. nia.
    - apply Z.div_lt_upper_bound; [lia|]. nia. }
  destruct q as [|pq|pq] eqn:Hpq; [lia| |lia].
  pose proof (digits_bounds pq) as Hdq.
  set (d := Z.pos (digits2_pos pq)) in *.
  assert (53 <= d <= 54) as Hd.
  { split.
    - destruct (Z_le_gt_dec 53 d) as [|Hgt]; [done|].
      assert (2 ^ d <= 2 ^ 52) by (apply Z.pow_le_mono_r; lia). lia.
    - destruct (Z_le_gt_dec d 54) as [|Hgt]; [done|].
      assert (2 ^ 54 <= 2 ^ (d - 1)) by (apply Z.pow_le_mono_r; lia). lia. }
  destruct (binary_round_aux_value pq (ex - ey - 53)
              (new_location (Z.pos my) (Z.pos mx * 2 ^ 53 mod Z.pos my)))
    as (m & e & Heq & Hn & He & Hv); fold d; try lia.
  exists m, e. fold d in He. split; [done|]. split; [done|]. split; [lia|]. done.
Qed.

Lemma shl_align_fst m e e' :
  e' <= e -> Z.pos (shl_align m e e').1 = Z.pos m * 2 ^ (e - e').
Proof.
  intros Hle. unfold shl_align. destruct (e' - e) as [|k|k] eqn:Hk; [|lia|].
  - replace (e - e') with 0 by lia. cbn [fst]. lia.
  - cbn [fst]. rewrite pos_iter_xO. f_equal. f_equal. lia.
Qed.

Lemma add_normal mx ex my ey :
  normal mx -> normal my ->
  -1074 <= ex -> -1074 <= ey -> ex <= 968 -> ey <= 968 ->
  ∃ m e,
    add (S754_finite false mx ex) (S754_finite false my ey) = S754_finite false m e
    ∧ normal m
    ∧ Z.max ex ey <= e <= Z.max ex ey + 2
    ∧ 2 ^ 52 * Z.abs (Z.pos m * 2 ^ (e - Z.min ex ey)
                      - (Z.pos mx * 2 ^ (ex - Z.min ex ey) + Z.pos my * 2 ^ (ey - Z.min ex ey)))
      <= Z.pos mx * 2 ^ (ex - Z.min ex ey) + Z.pos my * 2 ^ (ey - Z.min ex ey).
Proof.
  intros Hx Hy Hex Hey Hex' Hey'.
  unfold add, SFadd. cbn [cond_Zopp].
  set (ez := Z.min ex ey).
  rewrite <- !Pos2Z.inj_add. unfold binary_normalize, binary_round.
  set (pS := ((shl_align mx ex ez).1 + (shl_align my ey ez).1)%positive).
  assert (Z.pos pS = Z.pos mx * 2 ^ (ex - ez) + Z.pos my * 2 ^ (ey - ez)) as HS.
  { unfold pS. rewrite Pos2Z.inj_add, !shl_align_fst by lia. done. }
  rewrite <- HS.
  pose proof (digits_bounds pS) as Hd.
  set (d := Z.pos (digits2_pos pS)) in *.
  unfold normal in Hx, Hy.
  set (emx := Z.max ex ey).
  assert (0 < 2 ^ (ex - ez)) as Hpx by (apply Z.pow_pos_nonneg; lia).
  assert (0 < 2 ^ (ey - ez)) as Hpy by (apply Z.pow_pos_nonneg; lia).
  assert (2 ^ (emx - ez) <= 2 ^ (ex - ez) + 2 ^ (ey - ez)) as Hmax.
  { destruct (Z.max_spec ex ey) as [[_ Hm]|[_ Hm]]; fold emx in Hm; rewrite Hm; lia. }
  assert (2 ^ (ex - ez) <= 2 ^ (emx - ez)) as Hxm by (apply Z.pow_le_mono_r; lia).
  assert (2 ^ (ey - ez) <= 2 ^ (emx - ez)) as Hym by (apply Z.pow_le_mono_r; lia).
  assert (2 ^ (52 + (emx - ez)) <= Z.pos pS < 2 ^ (54 + (emx - ez))) as HSb.
  { rewrite !pow2_split by lia. rewrite HS. change (2 ^ 54) with (2 * 2 ^ 53). nia. }
  assert (53 + (emx - ez) <= d <= 54 + (emx - ez)) as Hdb.
  { split.
    - destruct (Z_le_gt_dec (53 + (emx - ez)) d) as [|Hgt]; [done|].
      assert (2 ^ d <= 2 ^ (52 + (emx - ez))) by (apply Z.pow_le_mono_r; lia). lia.
    - destruct (Z_le_gt_dec d (54 + (emx - ez))) as [|Hgt]; [done|].
      assert (2 ^ (54 + (emx - ez)) <= 2 ^ (d - 1)) by (apply Z.pow_le_mono_r; lia). lia. }
  rewrite fexp_normal by lia.
  assert (shl_align pS ez (d + ez - 53) = (pS, ez)) as ->.
  { unfold shl_align. destruct (d + ez - 53 - ez) eqn:?; [done|done|lia]. }
  destruct (binary_round_aux_value pS ez loc_Exact) as (m & e & Heq & Hn & He & Hv);
    fold d; try lia.
  exists m, e. fold d in He. split; [done|]. split; [done|]. split; [lia|]. done.
Qed.

(** The constant is the correctly rounded quotient of 42 by 10, and five
    times its mantissa is [21 * 2^50 + 1]: it exceeds 4.2 by [2^-50 / 5]. *)
Lemma c4_2_nearest :
  c4_2 = div (of_int 42) (of_int 10) ∧ 5 * 4728779608739021 = 21 * 2 ^ 50 + 1.
Proof. split; vm_compute; reflexivity. Qed.

Lemma c60e9_eq : c60e9 = S754_finite false 7864320000000000 (-17).
Proof. vm_compute. reflexivity. Qed.

Lemma scale_rel_error (a b u : Z) :
  0 <= u -> 2 ^ 52 * Z.abs (a - b) <= b -> 2 ^ 52 * Z.abs (a * u - b * u) <= b * u.
Proof.
  intros Hu H. rewrite <- Z.mul_sub_distr_r, Z.abs_mul, (Z.abs_eq u) by lia.
  rewrite Z.mul_assoc. apply Z.mul_le_mono_nonneg_r; lia.
Qed.

Lemma log2_bounds z lo hi :
  0 <= lo -> 2 ^ lo <= z < 2 ^ (hi + 1) -> lo <= Z.log2 z <= hi.
Proof.
  intros Hlo [H1 H2].
  assert (0 < z) as Hz by (pose proof (Z.pow_pos_nonneg 2 lo); lia).
  pose proof (Z.log2_spec z Hz) as [H3 H4].
  pose proof (Z.log2_nonneg z).
  split.
  - destruct (Z_le_gt_dec lo (Z.log2 z)) as [|Hgt]; [done|].
    assert (2 ^ Z.succ (Z.log2 z) <= 2 ^ lo) by (apply Z.pow_le_mono_r; lia). lia.
  - destruct (Z_le_gt_dec (Z.log2 z) hi) as [|Hgt]; [done|].
    assert (2 ^ (hi + 1) <= 2 ^ Z.log2 z) by (apply Z.pow_le_mono_r; lia). lia.
Qed.

Lemma Minutes_spec (dur : Z) :
  30 * time.Minute <= dur <= maxInt64 ->
  let min := dur / time.Minute in
  let nsec := dur mod time.Minute in
  ∃ m e F G u,
    time.Minutes dur = S754_finite false m e
    ∧ normal m ∧ -48 <= e <= -23
    ∧ 0 <= u <= 2 ^ (scaleK - 53)
    ∧ 60000000000 * G <= 2 ^ scaleK * nsec <= 60000000000 * (G + u)
    ∧ 2 ^ 52 * Z.abs (F - G) <= G
    ∧ 2 ^ 52 * Z.abs (Z.pos m * 2 ^ (e + scaleK) - (min * 2 ^ scaleK + F)) <= min * 2 ^ scaleK + F.
Proof.
  intros Hdur min nsec. unfold time.Minutes.
  change time.Minute with 60000000000 in *. unfold maxInt64 in Hdur.
  rewrite Z.quot_div_nonneg, Z.rem_mod_nonneg by lia. fold min nsec.
  assert (30 <= min < 2 ^ 28) as Hmin.
  { unfold min. split.
    - apply Z.div_le_lower_bound; lia.
    - apply Z.div_lt_upper_bound; lia. }
  assert (0 <= nsec < 60000000000) as Hnsec by (apply Z.mod_pos_bound; lia).
  destruct (of_int_pos min) as (ma & ea & Ha & Hna & Hea & Hva); [lia|].
  assert (-48 <= ea <= -25) as Hea'.
  { pose proof (log2_bounds min 4 27 ltac:(lia) ltac:(simpl; lia)). lia. }
  rewrite Ha, c60e9_eq.
  assert (Z.pos ma * 2 ^ (ea + scaleK) = min * 2 ^ scaleK) as HA.
  { rewrite Hva. replace (2 ^ scaleK) with (2 ^ (- ea) * 2 ^ (ea + scaleK)).
    - lia.
    - rewrite <- pow2_split by (unfold scaleK; lia). f_equal. lia. }
  destruct (Z.eq_dec nsec 0) as [Hz|Hnz].
  - (* a whole number of minutes *)
    rewrite Hz. cbn [of_int binary_normalize div SFdiv xorb add SFadd].
    exists ma, ea, 0, 0, 0. split; [done|]. split; [done|]. split; [lia|].
    split; [unfold scaleK; simpl; lia|]. split; [lia|]. split; [simpl; lia|].
    rewrite HA. rewrite Z.add_0_r, Z.sub_diag. simpl Z.abs. 
    assert (0 <= 2 ^ scaleK) by (apply Z.pow_nonneg; lia). nia.
  - destruct (of_int_pos nsec) as (mn & en & Hn & Hnn & Hen & Hvn);
      [change (2 ^ 53) with 9007199254740992; lia|].
    assert (-52 <= en <= -17) as Hen'.
    { pose proof (log2_bounds nsec 0 35 ltac:(lia) ltac:(simpl; lia)). lia. }
    rewrite Hn.
    destruct (div_normal mn en 7864320000000000 (-17)) as (mf & ef & Hf & Hnf & Hef & Hvf);
      [done|unfold normal; simpl; lia|lia|lia|].
    rewrite Hf.
    destruct (add_normal ma ea mf ef) as (m & e & Hm & Hnm & He & Hv);
      [done|done|lia|lia|lia|lia|].
    rewrite Hm.
    replace (Z.min ea ef) with ef in Hv by lia.
    replace (Z.max ea ef) with ea in He by lia.
    set (q := Z.pos mn * 2 ^ 53 / 7864320000000000) in *.
    set (u := 2 ^ (en - -17 - 53 + scaleK)).
    assert (0 < u) as Hu by (apply Z.pow_pos_nonneg; unfold scaleK; lia).
    exists m, e, (Z.pos mf * 2 ^ (ef + scaleK)), (q * u), u.
    split; [done|]. split; [done|]. split; [lia|].
    split.
    { split; [lia|]. apply Z.pow_le_mono_r; unfold scaleK; lia. }
    split.
    { (* the quotient brackets the fraction of a minute *)
      pose proof (Z.div_mod (Z.pos mn * 2 ^ 53) 7864320000000000 ltac:(lia)) as Hdm.
      pose proof (Z.mod_pos_bound (Z.pos mn * 2 ^ 53) 7864320000000000 ltac:(lia)) as Hmb.
      fold q in Hdm.
      assert (Z.pos mn * 2 ^ 53 * u = 2 ^ scaleK * nsec * 2 ^ 17) as Hscale.
      { rewrite Hvn. unfold u.
        replace (2 ^ scaleK) with (2 ^ (- en) * 2 ^ (en + scaleK))
          by (rewrite <- pow2_split by (unfold scaleK; lia); f_equal; lia).
        replace (2 ^ (en - -17 - 53 + scaleK)) with (2 ^ (en + scaleK - 36))
          by (f_equal; lia).
        assert (2 ^ (en + scaleK) = 2 ^ (en + scaleK - 36) * 2 ^ 36) as ->
          by (rewrite <- pow2_split by (unfold scaleK; lia); f_equal; lia).
        change (2 ^ 53) with (2 ^ 17 * 2 ^ 36). ring. }
      change 7864320000000000 with (60000000000 * 2 ^ 17) in Hdm, Hmb.
      nia. }
    split.
    { replace (Z.pos mf * 2 ^ (ef + scaleK)) with (Z.pos mf * 2 ^ (ef - (en - -17 - 53)) * u).
      - apply scale_rel_error; [lia|done].
      - unfold u. rewrite <- Z.mul_assoc, <- pow2_split by (unfold scaleK; lia).
        f_equal. f_equal. lia. }
    rewrite <- HA.
    set (v := 2 ^ (ef + scaleK)).
    assert (0 < v) as Hv' by (apply Z.pow_pos_nonneg; unfold scaleK; lia).
    replace (Z.pos m * 2 ^ (e + scaleK)) with (Z.pos m * 2 ^ (e - ef) * v)
      by (unfold v; rewrite <- Z.mul_assoc, <- pow2_split by (unfold scaleK; lia);
          f_equal; f_equal; lia).
    replace (Z.pos ma * 2 ^ (ea + scaleK) + Z.pos mf * v)
      with ((Z.pos ma * 2 ^ (ea - ef) + Z.pos mf * 2 ^ (ef - ef)) * v).
    + apply scale_rel_error; [lia|done].
    + rewrite Z.sub_diag, Z.pow_0_r, Z.mul_1_r, Z.mul_add_distr_r. f_equal.
      unfold v. rewrite <- Z.mul_assoc, <- pow2_split by (unfold scaleK; lia).
      f_equal. f_equal. lia.
Qed.

Lemma div_bracket_scaled (a b u : Z) :
  0 < b -> 0 < u ->
  b * (a / b * u) <= a * u < b * (a / b * u + u).
Proof.
  intros Hb Hu.
  pose proof (Z.div_mod a b ltac:(lia)) as Hdm.
  pose proof (Z.mod_pos_bound a b Hb) as Hmb.
  set (q := a / b) in *. set (r := a mod b) in *.
  assert (0 <= r * u) by (apply Z.mul_nonneg_nonneg; lia).
  assert (r * u < b * u) by (apply Z.mul_lt_mono_pos_r; lia).
  replace (a * u) with (b * (q * u) + r * u) by (rewrite Hdm; ring).
  replace (b * (q * u + u)) with (b * (q * u) + b * u) by ring.
  lia.
Qed.

Lemma steps_float (dur : Z) :
  30 * time.Minute <= dur <= maxInt64 ->
  2 <= to_int (div (time.Minutes dur) c4_2) < 2 ^ 29
  ∧ dur / (252 * time.Second) - 1 <= to_int (div (time.Minutes dur) c4_2)
    <= dur / (252 * time.Second) + 1.
Proof.
  intros Hdur.
  destruct (Minutes_spec dur Hdur) as (m & e & F & G & u & HM & Hnm & He & Hu & HG & HF & HMv).
  rewrite HM. unfold c4_2.
  destruct (div_normal m e 4728779608739021 (-50)) as (mq & eq & HQ & Hnq & Heq & HQv);
    [done|unfold normal; simpl; lia|lia|lia|].
  rewrite HQ. unfold to_int, trunc. cbn [cond_Zopp].
  assert ((0 <=? eq) = false) as -> by (apply Z.leb_gt; lia).
  set (T := Z.pos mq / 2 ^ (- eq)).
  assert (0 < 2 ^ (- eq)) as Hpe by (apply Z.pow_pos_nonneg; lia).
  assert (2 ^ 24 <= 2 ^ (- eq) <= 2 ^ 51) as Hpe'
    by (split; apply Z.pow_le_mono_r; lia).
  unfold normal in Hnq, Hnm.
  assert (2 <= T < 2 ^ 29) as HT.
  { change (2 ^ 24) with 16777216 in Hpe'. change (2 ^ 51) with 2251799813685248 in Hpe'.
    change (2 ^ 52) with 4503599627370496 in Hnq.
    change (2 ^ 53) with 9007199254740992 in Hnq.
    change (2 ^ 29) with 536870912. unfold T. split.
    - apply Z.div_le_lower_bound; lia.
    - apply Z.div_lt_upper_bound; lia. }
  assert (inInt64 T = true) as ->.
  { unfold inInt64, minInt64, maxInt64. apply andb_true_intro.
    change (2 ^ 29) with 536870912 in HT.
    split; [apply Z.leb_le|apply Z.leb_le]; simpl; lia. }
  split; [done|].
  (* everything at the common scale [2^scaleK] *)
  set (uq := 2 ^ (e - -50 - 53 + scaleK)).
  assert (0 < uq) as Huq by (apply Z.pow_pos_nonneg; unfold scaleK; lia).
  assert (uq <= 2 ^ (scaleK - 26)) as Huq' by (apply Z.pow_le_mono_r; unfold scaleK; lia).
  set (Mh := Z.pos m * 2 ^ (e + scaleK)) in *.
  assert (Z.pos m * 2 ^ 53 * uq = Mh * 2 ^ 50) as HMs.
  { unfold Mh, uq.
    replace (e - -50 - 53 + scaleK) with (e + scaleK - 3) by lia.
    assert (2 ^ (e + scaleK) = 2 ^ (e + scaleK - 3) * 2 ^ 3) as ->
      by (rewrite <- pow2_split by (unfold scaleK; lia); f_equal; lia).
    change (2 ^ 53) with (2 ^ 3 * 2 ^ 50). ring. }
  set (Qh := Z.pos mq * 2 ^ (eq + scaleK)).
  set (q := Z.pos m * 2 ^ 53 / 4728779608739021) in *.
  assert (2 ^ 52 * Z.abs (Qh - q * uq) <= q * uq) as HQh.
  { replace Qh with (Z.pos mq * 2 ^ (eq - (e - -50 - 53)) * uq).
    - apply scale_rel_error; [lia|done].
    - unfold Qh, uq. rewrite <- Z.mul_assoc, <- pow2_split by (unfold scaleK; lia).
      f_equal. f_equal. lia. }
  assert (T * 2 ^ scaleK <= Qh < (T + 1) * 2 ^ scaleK) as HTs.
  { assert (2 ^ scaleK = 2 ^ (- eq) * 2 ^ (eq + scaleK)) as HK
      by (rewrite <- pow2_split by (unfold scaleK; lia); f_equal; lia).
    assert (0 < 2 ^ (eq + scaleK)) as Hv by (apply Z.pow_pos_nonneg; unfold scaleK; lia).
    pose proof (div_bracket_scaled (Z.pos mq) (2 ^ (- eq)) (2 ^ (eq + scaleK)) Hpe Hv) as Hb.
    fold T in Hb. fold Qh in Hb. rewrite HK.
    replace (T * (2 ^ (- eq) * 2 ^ (eq + scaleK))) with (2 ^ (- eq) * (T * 2 ^ (eq + scaleK))) by ring.
    replace ((T + 1) * (2 ^ (- eq) * 2 ^ (eq + scaleK)))
      with (2 ^ (- eq) * (T * 2 ^ (eq + scaleK) + 2 ^ (eq + scaleK))) by ring.
    exact Hb. }
  assert (4728779608739021 * (q * uq) <= Mh * 2 ^ 50
          < 4728779608739021 * (q * uq + uq)) as HH.
  { rewrite <- HMs. apply div_bracket_scaled; lia. }
  set (H := q * uq) in *.
  clearbody H Qh Mh uq T q.
  change (252 * time.Second) with 252000000000.
  change time.Minute with 60000000000 in *.
  set (qs := dur / 252000000000).
  pose proof (Z.div_mod dur 252000000000 ltac:(lia)) as Hsdm.
  pose proof (Z.mod_pos_bound dur 252000000000 ltac:(lia)) as Hsmb.
  fold qs in Hsdm.
  pose proof (Z.div_mod dur 60000000000 ltac:(lia)) as Hmdm.
  pose proof (Z.mod_pos_bound dur 60000000000 ltac:(lia)) as Hmmb.
  cbv zeta in HG, HMv.
  set (mn := dur / 60000000000) in *. set (ns := dur mod 60000000000) in *.
  set (rs := dur mod 252000000000) in *.
  unfold maxInt64 in Hdur.
  clear HQv HQ HM HMs Hpe Hpe' Heq He Hnm Hnq.
  clearbody mn ns rs qs.
  unfold scaleK in *.
  change (2 ^ (100 - 53)) with 140737488355328 in *.
  change (2 ^ (100 - 26)) with 18889465931478580854784 in *.
  change (2 ^ 100) with 1267650600228229401496703205376 in *.
  change (2 ^ 52) with 4503599627370496 in *.
  change (2 ^ 50) with 1125899906842624 in *.
  change (2 ^ 29) with 536870912 in *.
  change (2 ^ 63) with 9223372036854775808 in *.
  lia.
Qed.

End float_facts.

(** ** steps *)

Section steps_claims.

Lemma steps_explicit (step dur : Z) : 0 < step -> steps step dur = step.
Proof. intros H. unfold steps. by rewrite (proj2 (Z.ltb_lt 0 step) H). Qed.

Lemma steps_short (step dur : Z) :
  step <= 0 -> dur < 15 * time.Minute -> steps step dur = 1.
Proof.
  intros Hs Hd. unfold steps.
  rewrite (proj2 (Z.ltb_ge 0 step) Hs). by rewrite (proj2 (Z.ltb_lt _ _) Hd).
Qed.

Lemma steps_medium (step dur : Z) :
  step <= 0 -> 15 * time.Minute <= dur < 30 * time.Minute -> steps step dur = 3.
Proof.
  intros Hs [Hd1 Hd2]. unfold steps.
  rewrite (proj2 (Z.ltb_ge 0 step) Hs), (proj2 (Z.ltb_ge _ _) Hd1).
  by rewrite (proj2 (Z.ltb_lt _ _) Hd2).
Qed.

Lemma steps_long (step dur : Z) :
  step <= 0 -> 30 * time.Minute <= dur ->
  steps step dur = F64.to_int (F64.div (time.Minutes dur) F64.c4_2).
Proof.
  intros Hs Hd. unfold steps.
  rewrite (proj2 (Z.ltb_ge 0 step) Hs).
  assert (15 * time.Minute <= dur) as Hd' by (change time.Minute with 60000000000 in *; lia).
  by rewrite (proj2 (Z.ltb_ge _ _) Hd'), (proj2 (Z.ltb_ge _ _) Hd).
Qed.

Lemma steps_spec_long (step dur : Z) :
  step <= 0 -> 30 * time.Minute <= dur ->
  steps_spec step dur = dur / (252 * time.Second).
Proof.
  intros Hs Hd. unfold steps_spec.
  rewrite (proj2 (Z.ltb_ge 0 step) Hs).
  assert (15 * time.Minute <= dur) as Hd' by (change time.Minute with 60000000000 in *; lia).
  by rewrite (proj2 (Z.ltb_ge _ _) Hd'), (proj2 (Z.ltb_ge _ _) Hd).
Qed.

(** C3, the claim as it stands fails: for a window of 37 minutes 48 seconds
    the exact quotient [37.8 / 4.2] is 9, but the [float64] quotient is just
    below 9 and [steps] returns 8. *)
Lemma steps_floor_counterexample :
  30 * time.Minute <= 2268 * time.Second
  ∧ steps 0 (2268 * time.Second) = 8
  ∧ steps_spec 0 (2268 * time.Second) = 9.
Proof. split_and!; vm_compute; congruence. Qed.

(** C3, amended: [steps] is the first-match policy of the specification,
    except that its last case returns the integer part of the [float64]
    quotient [dur.Minutes() / 4.2]; that integer is within one of
    [floor(duration_in_minutes / 4.2)] and need not be equal to it.  The
    four examples of the specification hold. *)
Theorem steps_policy (step dur : Z) :
  dur <= maxInt64 ->
  (0 < step -> steps step dur = step)
  ∧ (step <= 0 -> dur < 15 * time.Minute -> steps step dur = 1)
  ∧ (step <= 0 -> 15 * time.Minute <= dur < 30 * time.Minute -> steps step dur = 3)
  ∧ (step <= 0 -> 30 * time.Minute <= dur ->
       steps step dur = F64.to_int (F64.div (time.Minutes dur) F64.c4_2)
       ∧ steps_spec step dur - 1 <= steps step dur <= steps_spec step dur + 1)
  ∧ steps 5 dur = 5
  ∧ steps 0 (10 * time.Minute) = 1
  ∧ steps 0 (20 * time.Minute) = 3
  ∧ steps 0 (120 * time.Minute) = 28.
Proof.
  intros Hmax. split_and!.
  - apply steps_explicit.
  - apply steps_short.
  - apply steps_medium.
  - intros Hs Hd. rewrite steps_long, steps_spec_long by done.
    split; [done|]. by apply steps_float.
  - by apply steps_explicit.
  - vm_compute. reflexivity.
  - vm_compute. reflexivity.
  - vm_compute. reflexivity.
Qed.

Lemma steps_policy_witness :
  steps 0 (2268 * time.Second)
  = F64.to_int (F64.div (time.Minutes (2268 * time.Second)) F64.c4_2)
  ∧ steps_spec 0 (2268 * time.Second) - 1 <= steps 0 (2268 * time.Second)
    <= steps_spec 0 (2268 * time.Second) + 1.
Proof.
  assert (2268 * time.Second <= maxInt64) as Hmax by (vm_compute; congruence).
  destruct (steps_policy 0 (2268 * time.Second) Hmax) as (_ & _ & _ & Hlong & _).
  apply Hlong; vm_compute; congruence.
Defined.

(** C7: whatever the explicit step and the window, [steps] returns an
    integer that is at least 1; in the last case of the policy, reached
    from 30 minutes on, it is at least 2, so 0 is never computed. *)
Theorem steps_positive (step dur : Z) :
  dur <= maxInt64 ->
  1 <= steps step dur
  ∧ (step <= 0 -> 30 * time.Minute <= dur -> 2 <= steps step dur < 2 ^ 29).
Proof.
  intros Hmax.
  assert (step <= 0 -> 30 * time.Minute <= dur -> 2 <= steps step dur < 2 ^ 29) as Hlong.
  { intros Hs Hd. rewrite steps_long by done. by apply steps_float. }
  split; [|done].
  destruct (Z_lt_le_dec 0 step) as [Hs|Hs].
  { rewrite steps_explicit by done. lia. }
  destruct (Z_lt_le_dec dur (15 * time.Minute)) as [Hd|Hd].
  { rewrite steps_short by done. lia. }
  destruct (Z_lt_le_dec dur (30 * time.Minute)) as [Hd'|Hd'].
  { rewrite steps_medium by done. lia. }
  specialize (Hlong Hs Hd'). lia.
Qed.

Lemma steps_positive_witness :
  1 <= steps 0 (30 * time.Minute + 1)
  ∧ steps 0 (30 * time.Minute + 1) = 7.
Proof.
  assert (30 * time.Minute + 1 <= maxInt64) as Hmax by (vm_compute; congruence).
  split; [exact (proj1 (steps_positive 0 (30 * time.Minute + 1) Hmax))|].
  vm_compute. reflexivity.
Defined.

End steps_claims.

(** ** The renderers *)

Section render_facts.

Lemma string_app_assoc (a b c : string) : (a ++ b) ++ c = a ++ (b ++ c).
Proof.
  induction a as [|x a IH]; [done|].
  change (String x ((a ++ b) ++ c) = String x (a ++ (b ++ c))). by f_equal.
Qed.

Lemma string_app_nil_r (a : string) : a ++ EmptyString = a.
Proof.
  induction a as [|x a IH]; [done|].
  change (String x (a ++ EmptyString) = String x a). by f_equal.
Qed.

Lemma string_app_eq_self (w s : string) : w ++ s = w -> s = EmptyString.
Proof.
  induction w as [|x w IH]; [done|].
  change (String x (w ++ s) = String x w -> s = EmptyString).
  intros Heq. apply IH. congruence.
Qed.

Lemma concat_all_app (l1 l2 : list string) :
  concat_all (l1 ++ l2)%list = concat_all l1 ++ concat_all l2.
Proof.
  unfold concat_all. induction l1 as [|x l1 IH]; [done|].
  cbn [app foldr]. by rewrite IH, string_app_assoc.
Qed.

Lemma fold_go_append {A} (l acc : list A) :
  fold_left (fun s x => go_append s x) l acc = (acc ++ l)%list.
Proof.
  revert acc. induction l as [|x l IH]; intros acc; cbn.
  - by rewrite app_nil_r.
  - rewrite IH. unfold go_append. by rewrite <- app_assoc.
Qed.

Lemma times_of_sort (visit : list string) : times_of visit = sortStrings visit.
Proof. unfold times_of. by rewrite fold_go_append. Qed.

Lemma timesMap_keys_dom (keys : list string) (acc : gmap string bool) :
  dom (fold_left (fun timesMap tm => <[tm := true]> timesMap) keys acc)
  = dom acc ∪ list_to_set keys.
Proof.
  revert acc. induction keys as [|tm keys IH]; intros acc; cbn.
  - set_solver.
  - rewrite IH, dom_insert_L. set_solver.
Qed.

Lemma timesMap_of_dom_from (visits : list (list string)) (acc : gmap string bool) :
  dom (fold_left
         (fun timesMap keys =>
            fold_left (fun timesMap tm => <[tm := true]> timesMap) keys timesMap)
         visits acc)
  = dom acc ∪ ⋃ (map list_to_set visits).
Proof.
  revert acc. induction visits as [|keys visits IH]; intros acc; cbn.
  - set_solver.
  - rewrite IH, timesMap_keys_dom. set_solver.
Qed.

Lemma timesMap_of_dom (visits : list (list string)) :
  dom (timesMap_of visits) = ⋃ (map list_to_set visits).
Proof. unfold timesMap_of. rewrite timesMap_of_dom_from. set_solver. Qed.

Lemma keys_elem_of_dom {V} (m : gmap string V) (k : string) :
  k ∈ (map_to_list m).*1 <-> k ∈ dom m.
Proof.
  rewrite elem_of_dom, list_elem_of_fmap. split.
  - intros [[k' v] [-> Hin]]. apply elem_of_map_to_list in Hin. by exists v.
  - intros [v Hv]. exists (k, v). split; [done|]. by apply elem_of_map_to_list.
Qed.

Lemma keys_perm_elements {V} (m : gmap string V) :
  (map_to_list m).*1 ≡ₚ elements (dom m).
Proof.
  apply NoDup_Permutation.
  - apply NoDup_fst_map_to_list.
  - apply NoDup_elements.
  - intros k. by rewrite keys_elem_of_dom, elem_of_elements.
Qed.

Lemma valid_visits_union (results : list Result) (visits : list (list string)) :
  Forall2 (fun result keys => keys ≡ₚ (map_to_list (Values result)).*1) results visits ->
  ⋃ (map list_to_set visits) = all_keys results.
Proof.
  unfold all_keys. induction 1 as [|result keys results visits Hk _ IH]; cbn; [done|].
  rewrite IH. f_equal. apply set_eq. intros k.
  by rewrite elem_of_list_to_set, Hk, keys_elem_of_dom.
Qed.

(** The slice [times] of both writers is the axis of the specification,
    whatever orders the runtime chose. *)
Lemma times_of_axis (results : list Result) (o : RangeOrders) :
  valid_orders results o -> times_of (times_visit o) = axis results.
Proof.
  intros [Hvisits Htimes]. rewrite times_of_sort. unfold axis.
  apply sortStrings_proper. rewrite Htimes, keys_perm_elements.
  by rewrite timesMap_of_dom, (valid_visits_union results).
Qed.

Lemma canonical_orders_valid (results : list Result) :
  valid_orders results (canonical_orders results).
Proof.
  split; cbn; [|done]. induction results as [|r results IH]; cbn; by constructor.
Qed.

Lemma elem_of_all_keys (results : list Result) (tm : string) :
  tm ∈ all_keys results <-> ∃ result, result ∈ results ∧ is_Some (Values result !! tm).
Proof.
  unfold all_keys. rewrite elem_of_union_list. split.
  - intros (X & HX & Htm). apply list_elem_of_fmap in HX as (result & -> & Hin).
    exists result. split; [done|]. by apply elem_of_dom.
  - intros (result & Hin & Hsome). exists (dom (Values result)). split.
    + apply list_elem_of_fmap. by exists result.
    + by apply elem_of_dom.
Qed.

Lemma axis_elem_of (results : list Result) (tm : string) :
  tm ∈ axis results <-> ∃ result, result ∈ results ∧ is_Some (Values result !! tm).
Proof.
  unfold axis. by rewrite sortStrings_elem_of, elem_of_elements, elem_of_all_keys.
Qed.

Lemma axis_NoDup (results : list Result) : NoDup (axis results).
Proof.
  unfold axis. rewrite sortStrings_permutation. apply NoDup_elements.
Qed.

Lemma axis_sorted (results : list Result) : Sorted String.le (axis results).
Proof. apply sortStrings_sorted. Qed.

(** Go's [<] on strings. *)
Lemma le_neq_ltb (a b : string) : String.le a b -> a ≠ b -> String.ltb a b = true.
Proof.
  unfold String.le, String.leb, String.ltb. intros Hle Hne.
  destruct (String.compare a b) eqn:Hc; [|done|done].
  by apply String.compare_eq_iff in Hc.
Qed.

Lemma axis_strictly_ascending (results : list Result) :
  StronglySorted (fun a b => String.ltb a b = true) (axis results).
Proof.
  pose proof (axis_NoDup results) as Hnd.
  pose proof (Sorted_StronglySorted _ _ (axis_sorted results)) as Hs.
  induction Hs as [|a l Hs IH Hall]; [constructor|].
  apply NoDup_cons in Hnd as [Hnotin Hnd].
  constructor; [by apply IH|].
  rewrite Forall_forall in Hall. apply Forall_forall. intros b Hb.
  apply le_neq_ltb; [by apply Hall|]. intros ->. done.
Qed.

End render_facts.

Section render_output.

Lemma csv_cells_fold (results : list Result) (tm : string) (w : Writer) :
  fold_left (fun w result => Fprint w ("," ++ index_or_zero (Values result) tm)) results w
  = w ++ concat_all (map (fun result => "," ++ cell EmptyString result tm) results).
Proof.
  revert w. induction results as [|r results IH]; intros w.
  - cbn. by rewrite string_app_nil_r.
  - cbn [fold_left map]. rewrite IH. unfold Fprint, concat_all. cbn [foldr].
    by rewrite string_app_assoc.
Qed.

Lemma csv_rows_fold (localString : Z -> string) (results : list Result)
    (times : list string) (w : Writer) :
  fold_left
    (fun w tm =>
       let i64 := strconv.ParseInt tm in
       let uxdate := localString i64 in
       let w := Fprint w uxdate in
       let w := fold_left
                  (fun w result => Fprint w ("," ++ index_or_zero (Values result) tm))
                  results w in
       Fprintln w EmptyString)
    times w
  = w ++ concat_all (map (csv_row localString results) times).
Proof.
  revert w. induction times as [|tm times IH]; intros w.
  - cbn. by rewrite string_app_nil_r.
  - cbn [fold_left map]. cbv zeta. rewrite IH, csv_cells_fold.
    unfold Fprint, Fprintln, concat_all, csv_row. cbn [foldr].
    change (EmptyString ++ newline) with newline.
    by rewrite !string_app_assoc.
Qed.

Lemma axis_nil : axis [] = [].
Proof. reflexivity. Qed.

Lemma csvWriter_in_spec (o : RangeOrders) (localString : Z -> string) (w : Writer)
    (results : list Result) :
  valid_orders results o ->
  csvWriter_in o localString w results
  = (w ++ concat_all (map (csv_row localString results) (axis results)), None).
Proof.
  intros Hvalid. unfold csvWriter_in.
  destruct results as [|r results].
  - cbn. by rewrite string_app_nil_r.
  - cbn [length Nat.eqb]. by rewrite csv_rows_fold, (times_of_axis _ _ Hvalid).
Qed.

Lemma plot_vals_fold (times : list string) (result : Result) (acc : list string) :
  fold_left
    (fun vals tm =>
       match Values result !! tm with
       | Some val => go_append vals val
       | None => go_append vals "None"
       end)
    times acc
  = (acc ++ map (cell "None" result) times)%list.
Proof.
  revert acc. induction times as [|tm times IH]; intros acc.
  - cbn. by rewrite app_nil_r.
  - cbn [fold_left map]. rewrite IH. unfold cell, go_append.
    destruct (Values result !! tm); cbn; by rewrite <- app_assoc.
Qed.

Lemma matplotlib_series_spec (times : list string) (w : Writer) (i : nat) (result : Result) :
  matplotlib_series times w i result = w ++ plot_series times i result.
Proof.
  unfold matplotlib_series, plot_series, Fprint.
  rewrite plot_vals_fold. cbn [app]. by rewrite !string_app_assoc.
Qed.

Lemma matplotlib_series_fold (times : list string) (l : list (nat * Result)) (w : Writer) :
  fold_left (fun w ir => matplotlib_series times w ir.1 ir.2) l w
  = w ++ concat_all (map (fun ir => plot_series times ir.1 ir.2) l).
Proof.
  revert w. induction l as [|[i r] l IH]; intros w.
  - cbn. by rewrite string_app_nil_r.
  - cbn [fold_left map fst snd]. rewrite IH, matplotlib_series_spec.
    unfold concat_all. cbn [foldr]. by rewrite string_app_assoc.
Qed.

Lemma matplotlibWriter_in_spec (o : RangeOrders) (w : Writer) (results : list Result) :
  valid_orders results o -> results ≠ [] ->
  matplotlibWriter_in o w results
  = (w ++ "t = [" ++ Join (axis results) ", " ++ "]" ++ newline
       ++ concat_all (imap (plot_series (axis results)) results), None).
Proof.
  intros Hvalid Hne. unfold matplotlibWriter_in.
  destruct results as [|r results]; [done|].
  cbn [length Nat.eqb]. rewrite matplotlib_series_fold, (times_of_axis _ _ Hvalid).
  unfold Fprint. f_equal. rewrite !string_app_assoc. do 5 f_equal.
  change (map (fun ir => plot_series (axis (r :: results)) ir.1 ir.2)
              (imap pair (r :: results)))
    with ((fun ir => plot_series (axis (r :: results)) ir.1 ir.2) <$> imap pair (r :: results)).
  by rewrite fmap_imap.
Qed.

Lemma perm_keys_intro {V} (m : gmap string V) (keys : list string) :
  NoDup keys -> list_to_set keys = dom m -> keys ≡ₚ (map_to_list m).*1.
Proof.
  intros Hnd Hdom. apply NoDup_Permutation; [done|apply NoDup_fst_map_to_list|].
  intros k. by rewrite keys_elem_of_dom, <- Hdom, elem_of_list_to_set.
Qed.

End render_output.

Section render_claims.

(** C1: for every list of series and every order the runtime may choose
    when it ranges over the maps, the slice [times] built by [csvWriter]
    and [matplotlibWriter] is the axis of the specification: the keys of
    all sample maps, each once, strictly ascending in the order of strings;
    the table has one row per time of the axis with one cell per series
    (empty for a missing sample), and the plot has one list per series
    with one entry per time of the axis ([None] for a missing sample).
    For the series with keys [{10, 20}] and [{20, 30}] the axis is
    [10, 20, 30], the second series is absent at 10 and the first at 30. *)
Theorem aligned_axis (results : list Result) (o : RangeOrders)
    (localString : Z -> string) (w : Writer) :
  valid_orders results o ->
  times_of (times_visit o) = axis results
  ∧ StronglySorted (fun a b => String.ltb a b = true) (axis results)
  ∧ NoDup (axis results)
  ∧ (∀ tm, tm ∈ axis results
           <-> ∃ result, result ∈ results ∧ is_Some (Values result !! tm))
  ∧ csvWriter_in o localString w results
    = (w ++ concat_all (map (csv_row localString results) (axis results)), None)
  ∧ (results ≠ [] ->
     matplotlibWriter_in o w results
     = (w ++ "t = [" ++ Join (axis results) ", " ++ "]" ++ newline
          ++ concat_all (imap (plot_series (axis results)) results), None))
  ∧ (∀ absent result tm, Values result !! tm = None -> cell absent result tm = absent)
  ∧ (∀ absent result tm val, Values result !! tm = Some val -> cell absent result tm = val)
  ∧ axis [series_a; series_b] = ["10"; "20"; "30"]
  ∧ map (cell "None" series_a) (axis [series_a; series_b]) = ["1"; "2"; "None"]
  ∧ map (cell "None" series_b) (axis [series_a; series_b]) = ["None"; "3"; "4"]
  ∧ map (cell EmptyString series_a) (axis [series_a; series_b]) = ["1"; "2"; EmptyString]
  ∧ map (cell EmptyString series_b) (axis [series_a; series_b]) = [EmptyString; "3"; "4"].
Proof.
  intros Hvalid. split_and!.
  - by apply times_of_axis.
  - apply axis_strictly_ascending.
  - apply axis_NoDup.
  - apply axis_elem_of.
  - by apply csvWriter_in_spec.
  - by apply matplotlibWriter_in_spec.
  - intros absent result tm H. unfold cell. by rewrite H.
  - intros absent result tm val H. unfold cell. by rewrite H.
  - vm_compute. reflexivity.
  - vm_compute. reflexivity.
  - vm_compute. reflexivity.
  - vm_compute. reflexivity.
  - vm_compute. reflexivity.
Qed.

Lemma reversed_orders_valid : valid_orders [series_a; series_b] reversed_orders.
Proof.
  split.
  - repeat constructor; apply perm_keys_intro;
      apply (bool_decide_unpack _); vm_compute; reflexivity.
  - apply perm_keys_intro; apply (bool_decide_unpack _); vm_compute; reflexivity.
Qed.

Lemma aligned_axis_witness :
  times_of (times_visit reversed_orders) = ["10"; "20"; "30"]
  ∧ (matplotlibWriter_in reversed_orders EmptyString [series_a; series_b]).1
    = "t = [10, 20, 30]" ++ newline
      ++ "s0 = [1, 2, None]" ++ newline ++ "plot.plot(t, s0)" ++ newline
      ++ "s1 = [None, 3, 4]" ++ newline ++ "plot.plot(t, s1)" ++ newline
  ∧ (csvWriter_in reversed_orders itoa EmptyString [series_a; series_b]).1
    = "10,1," ++ newline ++ "20,2,3" ++ newline ++ "30,,4" ++ newline.
Proof.
  destruct (aligned_axis [series_a; series_b] reversed_orders itoa EmptyString
              reversed_orders_valid)
    as (Htimes & _ & _ & _ & Hcsv & Hplot & _ & _ & Haxis & _).
  split_and!.
  - by rewrite Htimes, Haxis.
  - rewrite Hplot by done. vm_compute. reflexivity.
  - rewrite Hcsv. vm_compute. reflexivity.
Defined.

(** The order of the axis is the order of the keys as strings, which is
    the numeric order only between keys of the same length: the key 9
    comes after the key 10. *)
Example axis_order_is_that_of_strings :
  axis [series_nine_ten] = ["10"; "9"]
  ∧ (matplotlibWriter EmptyString [series_nine_ten]).1
    = "t = [10, 9]" ++ newline ++ "s0 = [y, x]" ++ newline ++ "plot.plot(t, s0)" ++ newline.
Proof. split; vm_compute; reflexivity. Qed.

(** C9: rendering is deterministic.  [csvWriter] and [matplotlibWriter]
    range over maps; for any two choices of the orders in which the runtime
    visits them, the bytes written are the same.  ([csvHeaderWriter] and
    [matplotlibLegendWriter] range over the slice of results only, and are
    functions of it.) *)
Theorem rendering_deterministic (results : list Result) (o1 o2 : RangeOrders)
    (localString : Z -> string) (w : Writer) :
  valid_orders results o1 -> valid_orders results o2 ->
  csvWriter_in o1 localString w results = csvWriter_in o2 localString w results
  ∧ matplotlibWriter_in o1 w results = matplotlibWriter_in o2 w results
  ∧ csvWriter_in o1 localString w results = csvWriter localString w results
  ∧ matplotlibWriter_in o1 w results = matplotlibWriter w results.
Proof.
  intros H1 H2. pose proof (canonical_orders_valid results) as Hc.
  unfold csvWriter, matplotlibWriter.
  rewrite !csvWriter_in_spec by done.
  split_and!; try done.
  - destruct results as [|r results]; [done|].
    by rewrite !matplotlibWriter_in_spec by done.
  - destruct results as [|r results]; [done|].
    by rewrite !matplotlibWriter_in_spec by done.
Qed.

Lemma rendering_deterministic_witness :
  csvWriter_in reversed_orders itoa EmptyString [series_a; series_b]
  = csvWriter_in (canonical_orders [series_a; series_b]) itoa EmptyString [series_a; series_b]
  ∧ matplotlibWriter_in reversed_orders EmptyString [series_a; series_b]
    = matplotlibWriter_in (canonical_orders [series_a; series_b]) EmptyString
        [series_a; series_b].
Proof.
  destruct (rendering_deterministic [series_a; series_b] reversed_orders
              (canonical_orders [series_a; series_b]) itoa EmptyString
              reversed_orders_valid (canonical_orders_valid _))
    as (Hcsv & Hplot & _).
  by split.
Defined.

(** C5: what each renderer writes for an empty list of results.  The
    three writers that start with the [len(results) == 0] test write
    nothing; [matplotlibLegendWriter] has no such test and writes a legend
    statement with an empty list.  All four return a nil error. *)
Theorem renderers_on_empty (o : RangeOrders) (localString : Z -> string) (w : Writer) :
  csvWriter_in o localString w [] = (w, None)
  ∧ csvHeaderWriter w [] = (w, None)
  ∧ matplotlibWriter_in o w [] = (w, None)
  ∧ matplotlibLegendWriter w []
    = (w ++ "plot.legend([], loc='upper left')" ++ newline, None)
  ∧ (matplotlibLegendWriter w []).1 ≠ w.
Proof.
  split_and!; try reflexivity.
  cbn [fst matplotlibLegendWriter fold_left]. unfold Fprint. intros Heq.
  apply string_app_eq_self in Heq. vm_compute in Heq. discriminate.
Qed.

End render_claims.

(** ** The sample-extraction loop *)

Section extraction_facts.
Import F64.

Lemma sample_pair timestamp value rest :
  sample (JNumber timestamp :: JString value :: rest) = Ok (format_f0 timestamp, value).
Proof. reflexivity. Qed.

(** An entry either starts with a number and a string, or the type
    assertions (or the indexing) panic. *)
Lemma sample_cases (vals : list jvalue) :
  (starts_with_pair vals ∧ ∃ kv, sample vals = Ok kv)
  ∨ (¬ starts_with_pair vals ∧ sample vals = Panic).
Proof.
  destruct vals as [|first [|second rest]].
  - right. split; [|done]. by intros (t & v & r & H).
  - right. split; [by intros (t & v & r & H)|]. by destruct first.
  - destruct first as [| |timestamp| | |];
      try (right; split; [by intros (t & v & r & H)|done]).
    destruct second as [| | |value| |];
      try (right; split; [by intros (t & v & r & H)|done]).
    left. split; [by exists timestamp, value, rest|]. by eexists.
Qed.

Lemma samples_into_entries (entries : list (float64 * string)) (values : gmap string string) :
  samples_into values (map entry_of entries)
  = Ok (fold_left (fun values tv => <[format_f0 tv.1 := tv.2]> values) entries values).
Proof.
  revert values. induction entries as [|[t v] entries IH]; intros values; [done|].
  cbn [map samples_into].
  replace (sample (entry_of (t, v))) with (@Ok error _ (format_f0 t, v)) by reflexivity.
  cbn. by rewrite IH.
Qed.


Lemma samples_into_total (pairs : list (list jvalue)) (values : gmap string string) :
  (Forall starts_with_pair pairs ∧ ∃ values', samples_into values pairs = Ok values')
  ∨ (¬ Forall starts_with_pair pairs ∧ samples_into values pairs = Panic).
Proof.
  revert values. induction pairs as [|vals pairs IH]; intros values.
  - left. split; [constructor|by eexists].
  - cbn [samples_into].
    destruct (sample_cases vals) as [[Hshape [kv ->]]|[Hshape ->]].
    + cbn. destruct (IH (<[kv.1 := kv.2]> values)) as [[Hall Hok]|[Hall Hpanic]].
      * left. split; [by constructor|done].
      * right. split; [|done]. intros H. apply Hall. by inversion H.
    + right. split; [|done]. intros H. apply Hshape. by inversion H.
Qed.



Lemma samples_fold_last (entries : list (float64 * string)) (t : float64) (v : string) :
  samples_of (entries ++ [(t, v)]) !! format_f0 t = Some v.
Proof. unfold samples_of. rewrite fold_left_app. cbn. apply lookup_insert_eq. Qed.






End extraction_facts.

Section extraction_claims.
Import F64.



End extraction_claims.

(** ** The query clients *)

Section client_facts.

Lemma samples_ok_or_panic (pairs : list (list jvalue)) :
  (∃ values, samples pairs = Ok values) ∨ samples pairs = Panic.
Proof.
  unfold samples. destruct (samples_into_total pairs ∅) as [[_ H]|[_ H]]; auto.
Qed.

Lemma results_into_ok_or_panic (series : list promSeries) (acc : list Result) :
  (∃ results, results_into acc series = Ok results
              ∧ length results = (length acc + length series)%nat)
  ∨ results_into acc series = Panic.
Proof.
  revert acc. induction series as [|res series IH]; intros acc.
  - left. exists acc. split; [done|]. cbn. lia.
  - cbn [results_into].
    destruct (samples_ok_or_panic (Values_pairs res)) as [[values ->] | ->]; [|by right].
    cbn. destruct (IH (go_append acc
                         {| Metric := Canon.metricName (Metric_labels res);
                            Values := values |}))
      as [(results & Hok & Hlen)|Hpanic]; [|by right].
    left. exists results. split; [done|]. rewrite Hlen. unfold go_append.
    rewrite length_app. cbn. lia.
Qed.

Lemma handle_response_error_iff (W : World) (url : string) (response : Response) :
  (∃ e, handle_response W url response = Err e)
  <-> StatusCode response ≠ 200
      ∨ (∃ msg, json_Decode W (Body response) = inl msg)
      ∨ (∃ resp, json_Decode W (Body response) = inr resp
                 ∧ (ResultType resp ≠ "matrix" ∨ Result_list resp = [])).
Proof.
  unfold handle_response.
  destruct (decide (StatusCode response ≠ 200)) as [Hs|Hs].
  { split; [by left|]. intros _. by eexists. }
  destruct (json_Decode W (Body response)) as [msg|resp].
  { split; [intros _; right; left; by eexists|]. intros _. by eexists. }
  destruct (decide (ResultType resp ≠ "matrix")) as [Ht|Ht].
  { split; [|intros _; by eexists]. intros _. right. right. exists resp. auto. }
  destruct (decide (Result_list resp = [])) as [Hn|Hn].
  { split; [|intros _; by eexists]. intros _. right. right. exists resp. auto. }
  split.
  - intros [e He].
    destruct (results_into_ok_or_panic (Result_list resp) []) as [(r & Hok & _)|Hp];
      congruence.
  - intros [H|[[msg H]|(resp' & H & [H'|H'])]]; try done; by simplify_eq.
Qed.

Lemma handle_response_ok (W : World) (url : string) (response : Response)
    (results : list Result) :
  handle_response W url response = Ok results ->
  StatusCode response = 200
  ∧ ∃ resp, json_Decode W (Body response) = inr resp
            ∧ ResultType resp = "matrix"
            ∧ length results = length (Result_list resp)
            ∧ results ≠ [].
Proof.
  unfold handle_response.
  destruct (decide (StatusCode response ≠ 200)) as [Hs|Hs]; [done|].
  destruct (json_Decode W (Body response)) as [msg|resp]; [done|].
  destruct (decide (ResultType resp ≠ "matrix")) as [Ht|Ht]; [done|].
  destruct (decide (Result_list resp = [])) as [Hn|Hn]; [done|].
  intros Hok. split; [by apply dec_stable|]. exists resp. split; [done|].
  split; [by apply dec_stable|].
  destruct (results_into_ok_or_panic (Result_list resp) []) as [(r & Hok' & Hlen)|Hp];
    [|congruence].
  rewrite Hok in Hok'. injection Hok' as <-. cbn in Hlen. split; [done|].
  intros ->. cbn in Hlen. destruct (Result_list resp); [done|]. cbn in Hlen. lia.
Qed.

(** The response handling written in [Query] and in [IcpQuery] is the one
    of the specification. *)
Lemma client_tail_spec (W : World) (url : string) (response : Response) :
  (if negb (StatusCode response =? 200) then
     Err (RequestFailed ("didn't return 200 OK but " ++ Status response ++ ": " ++ url))
   else
     match json_Decode W (Body response) with
     | inl err => Err (DecodeError err)
     | inr resp =>
         if negb (String.eqb (ResultType resp) "matrix") then
           Err (UnsupportedResultType
                  ("result type isn't of type matrix: " ++ ResultType resp))
         else if (length (Result_list resp) =? 0)%nat then
           Err (EmptyResult (YellowString W "no timeseries found"))
         else results_into [] (Result_list resp)
     end)
  = handle_response W url response.
Proof.
  unfold handle_response.
  destruct (Z.eqb_spec (StatusCode response) 200) as [Hs|Hs]; cbn [negb].
  2: { by rewrite decide_True. }
  rewrite decide_False by (intros H; by apply H).
  destruct (json_Decode W (Body response)) as [msg|resp]; [done|].
  destruct (String.eqb_spec (ResultType resp) "matrix") as [Ht|Ht]; cbn [negb].
  2: { by rewrite decide_True. }
  rewrite decide_False by (intros H; by apply H).
  destruct (Result_list resp) as [|res rest] eqn:Hl; cbn [length Nat.eqb].
  - by rewrite decide_True.
  - by rewrite decide_False.
Qed.

Lemma Query_answered (W : World) (host : string) (start end_ : time.Time) (step : Z)
    (query : string) (u : URL) (caCert : string) (response : Response) :
  url_Parse W host = inr u ->
  ReadFile W "cert.crt" = inr caCert ->
  NewRequest W (URL_String W (Query_url W u start end_ step query)) = None ->
  RoundTrip W caCert
    {| req_url := URL_String W (Query_url W u start end_ step query);
       Authorization := None |} = inr response ->
  Query W host start end_ step query
  = handle_response W (URL_String W (Query_url W u start end_ step query)) response.
Proof.
  intros Hu Hc Hn Hr. unfold Query. rewrite Hu, Hc, Hn, Hr. apply client_tail_spec.
Qed.

Lemma IcpQuery_answered (W : World) (host token : string) (start end_ : time.Time)
    (step : Z) (query : string) (u : URL) (caCert : string) (response : Response) :
  url_Parse W host = inr u ->
  ReadFile W "cert.crt" = inr caCert ->
  NewRequest W (URL_String W (IcpQuery_url W u start end_ step query)) = None ->
  RoundTrip W caCert
    {| req_url := URL_String W (IcpQuery_url W u start end_ step query);
       Authorization := Some token |} = inr response ->
  IcpQuery W host token start end_ step query
  = handle_response W (URL_String W (IcpQuery_url W u start end_ step query)) response.
Proof.
  intros Hu Hc Hn Hr. unfold IcpQuery. rewrite Hu, Hc, Hn, Hr. apply client_tail_spec.
Qed.

(** Two responses with the same status code and the same body are handled
    alike, up to the text of the error. *)
Lemma handle_response_classify (W : World) (url1 url2 : string) (r1 r2 : Response) :
  StatusCode r1 = StatusCode r2 -> Body r1 = Body r2 ->
  classify (handle_response W url1 r1) = classify (handle_response W url2 r2).
Proof.
  intros Hs Hb. unfold handle_response. rewrite Hs, Hb.
  destruct (decide (StatusCode r2 ≠ 200)); [done|].
  destruct (json_Decode W (Body r2)) as [msg|resp]; [done|].
  destruct (decide (ResultType resp ≠ "matrix")); [done|].
  by destruct (decide (Result_list resp = [])).
Qed.

End client_facts.

Section client_claims.

(** C4, the claim as it stands fails: [Query] also returns an error when
    the host does not parse as a URL and when the transport fails, before
    there is any status or body.  In [bad_host_world] every request would
    be answered 200 with a matrix of one series, and [Query] returns the
    error of [url.Parse]; in [offline_world] no request is answered, and
    [Query] returns the error of the transport. *)
Lemma Query_error_counterexample :
  Query bad_host_world "https://h" epoch ten_minutes_later 0 "up"
  = Err (UrlParseError "missing protocol scheme")
  ∧ (∀ caCert request, ∃ response resp,
       RoundTrip bad_host_world caCert request = inr response
       ∧ StatusCode response = 200
       ∧ json_Decode bad_host_world (Body response) = inr resp
       ∧ ResultType resp = "matrix"
       ∧ length (Result_list resp) = 1%nat)
  ∧ Query offline_world "https://h" epoch ten_minutes_later 0 "up"
    = Err (TransportError "connection refused")
  ∧ (∀ caCert request, RoundTrip offline_world caCert request = inl "connection refused").
Proof.
  split_and!; try reflexivity.
  intros caCert request. by eexists _, _.
Qed.

(** C4, amended: [Query] returns an error exactly in these cases: the host
    does not parse as a URL; the request cannot be built or the transport
    fails; or a response is received and its status is not 200 (the error
    then carries the status text and the request URL), its body does not
    decode, the decoded result type is not "matrix", or the decoded result
    list is empty.  When it succeeds it returns one series per result of
    the response, so at least one.  (A certificate file that cannot be
    read ends the process instead of returning.) *)
Theorem Query_error_iff (W : World) (host : string) (start end_ : time.Time) (step : Z)
    (query : string) :
  (∀ msg, url_Parse W host = inl msg ->
     Query W host start end_ step query = Err (UrlParseError msg))
  ∧ (∀ u msg, url_Parse W host = inr u -> ReadFile W "cert.crt" = inl msg ->
       Query W host start end_ step query = Fatal)
  ∧ (∀ u caCert,
       url_Parse W host = inr u -> ReadFile W "cert.crt" = inr caCert ->
       let url := URL_String W (Query_url W u start end_ step query) in
       let answer := RoundTrip W caCert {| req_url := url; Authorization := None |} in
       (∀ msg, NewRequest W url = Some msg ->
          Query W host start end_ step query = Err (TransportError msg))
       ∧ (NewRequest W url = None ->
          (∀ msg, answer = inl msg ->
             Query W host start end_ step query = Err (TransportError msg))
          ∧ (∀ response, answer = inr response ->
               ((∃ e, Query W host start end_ step query = Err e)
                <-> StatusCode response ≠ 200
                    ∨ (∃ msg, json_Decode W (Body response) = inl msg)
                    ∨ (∃ resp, json_Decode W (Body response) = inr resp
                               ∧ (ResultType resp ≠ "matrix" ∨ Result_list resp = [])))
               ∧ (StatusCode response ≠ 200 ->
                  Query W host start end_ step query
                  = Err (RequestFailed ("didn't return 200 OK but " ++ Status response
                                        ++ ": " ++ url)))
               ∧ (∀ results, Query W host start end_ step query = Ok results ->
                    ∃ resp, json_Decode W (Body response) = inr resp
                            ∧ length results = length (Result_list resp)
                            ∧ results ≠ [])))).
Proof.
  split_and!.
  - intros msg Hu. unfold Query. by rewrite Hu.
  - intros u msg Hu Hc. unfold Query. by rewrite Hu, Hc.
  - intros u caCert Hu Hc url answer. split.
    + intros msg Hn. unfold Query. rewrite Hu, Hc. fold url. by rewrite Hn.
    + intros Hn. split.
      * intros msg Ha. unfold Query. rewrite Hu, Hc. fold url. rewrite Hn.
        fold answer. by rewrite Ha.
      * intros response Ha.
        rewrite (Query_answered W host start end_ step query u caCert response)
          by done.
        fold url. split_and!.
        -- apply handle_response_error_iff.
        -- intros Hs. unfold handle_response. by rewrite decide_True.
        -- intros results Hok. apply handle_response_ok in Hok as (_ & resp & H & _ & Hl).
           by exists resp.
Qed.

Lemma Query_error_iff_witness :
  ∃ results,
    Query demo_world "https://h" epoch ten_minutes_later 0 "up" = Ok results
    ∧ length results = 1%nat.
Proof.
  destruct (Query_error_iff demo_world "https://h" epoch ten_minutes_later 0 "up")
    as (_ & _ & Hanswered).
  destruct (Hanswered {| Base := "https://h"; Path := EmptyString; RawQuery := EmptyString |}
              "pem" eq_refl eq_refl) as (_ & Hsent).
  destruct (Hsent eq_refl) as (_ & Hresp).
  destruct (Hresp {| StatusCode := 200; Status := "200 OK"; Body := "{}" |} eq_refl)
    as (_ & _ & Hok).
  eexists. split; [vm_compute; reflexivity|].
  destruct (Hok _ ltac:(vm_compute; reflexivity)) as (resp & Hdec & Hlen & _).
  injection Hdec as <-. exact Hlen.
Defined.

(** C8: the two clients send requests that differ in the path prefix and
    in the auth header only, and they handle the response alike: when both
    receive a response, with the same status code and the same body, they
    end the same way: the same series on success, an error from the same
    statement otherwise (the text of a status error names the request URL,
    which differs in the path), or the same panic. *)
Theorem clients_agree (W : World) (host token : string) (start end_ : time.Time) (step : Z)
    (query : string) (u : URL) (caCert : string) (r1 r2 : Response) :
  url_Parse W host = inr u ->
  ReadFile W "cert.crt" = inr caCert ->
  NewRequest W (URL_String W (Query_url W u start end_ step query)) = None ->
  NewRequest W (URL_String W (IcpQuery_url W u start end_ step query)) = None ->
  RoundTrip W caCert
    {| req_url := URL_String W (Query_url W u start end_ step query);
       Authorization := None |} = inr r1 ->
  RoundTrip W caCert
    {| req_url := URL_String W (IcpQuery_url W u start end_ step query);
       Authorization := Some token |} = inr r2 ->
  StatusCode r1 = StatusCode r2 ->
  Body r1 = Body r2 ->
  classify (Query W host start end_ step query)
  = classify (IcpQuery W host token start end_ step query)
  ∧ (∀ results, Query W host start end_ step query = Ok results
                <-> IcpQuery W host token start end_ step query = Ok results)
  ∧ Path (Query_url W u start end_ step query) = "api/v1/query_range"
  ∧ Path (IcpQuery_url W u start end_ step query)
    = "prometheus/" ++ Path (Query_url W u start end_ step query)
  ∧ Base (IcpQuery_url W u start end_ step query) = Base (Query_url W u start end_ step query)
  ∧ RawQuery (IcpQuery_url W u start end_ step query)
    = RawQuery (Query_url W u start end_ step query).
Proof.
  intros Hu Hc Hn1 Hn2 Hr1 Hr2 Hs Hb.
  rewrite (Query_answered W host start end_ step query u caCert r1) by done.
  rewrite (IcpQuery_answered W host token start end_ step query u caCert r2) by done.
  pose proof (handle_response_classify W
                (URL_String W (Query_url W u start end_ step query))
                (URL_String W (IcpQuery_url W u start end_ step query))
                r1 r2 Hs Hb) as Hcl.
  split; [done|]. split; [|done].
  intros results.
  destruct (handle_response W _ r1), (handle_response W _ r2);
    cbn in Hcl; split; intros H; congruence.
Qed.

Lemma clients_agree_witness :
  classify (Query demo_world "https://h" epoch ten_minutes_later 0 "up")
  = classify (IcpQuery demo_world "https://h" "token" epoch ten_minutes_later 0 "up")
  ∧ ∃ results,
      Query demo_world "https://h" epoch ten_minutes_later 0 "up" = Ok results
      ∧ IcpQuery demo_world "https://h" "token" epoch ten_minutes_later 0 "up" = Ok results.
Proof.
  destruct (clients_agree demo_world "https://h" "token" epoch ten_minutes_later 0 "up"
              {| Base := "https://h"; Path := EmptyString; RawQuery := EmptyString |}
              "pem"
              {| StatusCode := 200; Status := "200 OK"; Body := "{}" |}
              {| StatusCode := 200; Status := "200 OK"; Body := "{}" |}
              eq_refl eq_refl eq_refl eq_refl eq_refl eq_refl eq_refl eq_refl)
    as (Hcl & Hok & _).
  split; [exact Hcl|].
  eexists. split; [vm_compute; reflexivity|].
  apply Hok. vm_compute. reflexivity.
Defined.

End client_claims.

(** * Further properties of the renderers *)

Section render_more.

Lemma header_fold (results : list Result) (acc : list string) :
  fold_left (fun header result => go_append header (Metric result)) results acc
  = (acc ++ map Metric results)%list.
Proof.
  revert acc. induction results as [|r results IH]; intros acc; cbn.
  - by rewrite app_nil_r.
  - rewrite IH. unfold go_append. by rewrite <- app_assoc.
Qed.

(** X1: for a list of results that is not empty, [csvHeaderWriter] writes
    one line: the field [Time], then the display name of every series in
    the order of the list (repeated names are kept), separated by commas. *)
Theorem csvHeaderWriter_line (w : Writer) (results : list Result) :
  results ≠ [] ->
  csvHeaderWriter w results
  = (w ++ Join ("Time" :: map Metric results) "," ++ newline, None).
Proof.
  intros Hne. unfold csvHeaderWriter. destruct results as [|r results]; [done|].
  cbn [length Nat.eqb]. by rewrite header_fold.
Qed.

Lemma csvHeaderWriter_line_witness :
  csvHeaderWriter EmptyString [series_a; series_b; series_a]
  = ("Time,a,b,a" ++ newline, None).
Proof.
  rewrite (csvHeaderWriter_line EmptyString [series_a; series_b; series_a]) by done.
  vm_compute. reflexivity.
Defined.

Lemma legend_fold (results : list Result) (acc : list string) :
  fold_left (fun labels result => go_append labels ("'" ++ Metric result ++ "'")) results acc
  = (acc ++ map (fun result => quoted (Metric result)) results)%list.
Proof.
  revert acc. induction results as [|r results IH]; intros acc; cbn.
  - by rewrite app_nil_r.
  - rewrite IH. unfold go_append. by rewrite <- app_assoc.
Qed.

(** X2: for every list of results, empty or not, [matplotlibLegendWriter]
    writes one [plot.legend] statement that lists the display names in the
    order of the list, each between single quotes (a quote inside a name is
    not escaped), and returns a nil error. *)
Theorem matplotlibLegendWriter_line (w : Writer) (results : list Result) :
  matplotlibLegendWriter w results
  = (w ++ "plot.legend(["
       ++ Join (map (fun result => quoted (Metric result)) results) ", "
       ++ "], loc='upper left')" ++ newline, None).
Proof. unfold matplotlibLegendWriter, Fprint. by rewrite legend_fold. Qed.

Lemma string_app_nil_inv (a b : string) :
  a ++ b = EmptyString -> a = EmptyString ∧ b = EmptyString.
Proof. destruct a; [done|]. intros H. discriminate H. Qed.

Lemma csv_row_nonempty (localString : Z -> string) (results : list Result) (tm : string) :
  csv_row localString results tm ≠ EmptyString.
Proof.
  unfold csv_row. intros H.
  apply string_app_nil_inv in H as [_ H]. apply string_app_nil_inv in H as [_ H].
  discriminate H.
Qed.

Lemma concat_all_nil_inv (l : list string) :
  (∀ s, s ∈ l -> s ≠ EmptyString) -> concat_all l = EmptyString -> l = [].
Proof.
  destruct l as [|s l]; [done|]. intros Hne H. unfold concat_all in H. cbn [foldr] in H.
  apply string_app_nil_inv in H as [H _]. exfalso. apply (Hne s); [by left|done].
Qed.

Lemma axis_nil_iff (results : list Result) :
  axis results = [] <-> ∀ result, result ∈ results -> Values result = ∅.
Proof.
  split.
  - intros Hnil result Hin. apply map_empty. intros tm.
    destruct (Values result !! tm) as [v|] eqn:Hv; [|done].
    assert (tm ∈ axis results) as Htm by (apply axis_elem_of; by exists result).
    rewrite Hnil in Htm. by apply elem_of_nil in Htm.
  - intros Hall. destruct (axis results) as [|tm l] eqn:Hax; [done|].
    assert (tm ∈ axis results) as Htm by (rewrite Hax; by left).
    apply axis_elem_of in Htm as (result & Hin & [v Hv]).
    rewrite (Hall result Hin) in Hv. by rewrite lookup_empty in Hv.
Qed.

(** X3: [csvWriter] writes nothing at all exactly when no series has a
    sample (in particular when there is no series): with at least one
    sample anywhere it writes at least one row. *)
Theorem csvWriter_silent_iff (o : RangeOrders) (localString : Z -> string) (w : Writer)
    (results : list Result) :
  valid_orders results o ->
  (csvWriter_in o localString w results).1 = w
  <-> ∀ result, result ∈ results -> Values result = ∅.
Proof.
  intros Hvalid. rewrite csvWriter_in_spec by done. cbn [fst].
  rewrite <- axis_nil_iff. split.
  - intros H. apply string_app_eq_self in H.
    apply concat_all_nil_inv in H.
    + by apply fmap_nil_inv in H.
    + intros s Hs. apply list_elem_of_fmap in Hs as (tm & -> & _).
      apply csv_row_nonempty.
  - intros ->. cbn. by rewrite string_app_nil_r.
Qed.

Lemma csvWriter_silent_iff_witness :
  (csvWriter_in reversed_orders itoa EmptyString [series_a; series_b]).1 ≠ EmptyString.
Proof.
  intros H.
  pose proof (proj1 (csvWriter_silent_iff reversed_orders itoa EmptyString
                       [series_a; series_b] reversed_orders_valid) H series_a) as Hempty.
  assert (Values series_a !! "10" = None) as Hlook
    by (rewrite Hempty; [apply lookup_empty|by left]).
  vm_compute in Hlook. discriminate Hlook.
Defined.

End render_more.

(** * Further properties of the query clients *)

Section client_more.
Import F64.

Lemma results_into_from (series : list promSeries) (acc results : list Result) :
  results_into acc series = Ok results
  <-> ∃ rs, results = (acc ++ rs)%list
            ∧ Forall2 (fun res r => Metric r = Canon.metricName (Metric_labels res)
                                    ∧ samples (Values_pairs res) = Ok (Values r))
                      series rs.
Proof.
  revert acc. induction series as [|res series IH]; intros acc.
  - cbn. split.
    + intros [= <-]. exists []. split; [by rewrite app_nil_r|constructor].
    + intros (rs & -> & Hall). inversion Hall. by rewrite app_nil_r.
  - cbn [results_into]. split.
    + destruct (samples (Values_pairs res)) as [values| | |] eqn:Hs; try done.
      cbn. intros H. apply IH in H as (rs & -> & Hall).
      exists ({| Metric := Canon.metricName (Metric_labels res); Values := values |} :: rs).
      split; [unfold go_append; by rewrite <- app_assoc|].
      by constructor.
    + intros (rs & -> & Hall). inversion Hall as [|? r ? rs' [Hm Hv] Hall']; subst.
      rewrite Hv. cbn. apply IH. exists rs'. split; [|done].
      unfold go_append. rewrite <- app_assoc. cbn. do 2 f_equal.
      destruct r as [m v]. cbn in *. by subst.
Qed.

(** X4: when the loop over the response results ends normally, the series
    it returns are in the order of the response, one per result: the i-th
    series has the canonical name of the i-th label set and the sample map
    extracted from the i-th list of values (and conversely, such a list is
    what the loop returns). *)
Theorem results_in_response_order (series : list promSeries) (results : list Result) :
  results_into [] series = Ok results
  <-> Forall2 (fun res r => Metric r = Canon.metricName (Metric_labels res)
                            ∧ samples (Values_pairs res) = Ok (Values r))
              series results.
Proof.
  rewrite results_into_from. split.
  - by intros (rs & -> & Hall).
  - intros Hall. by exists results.
Qed.

Lemma results_into_total (series : list promSeries) (acc : list Result) :
  (Forall (fun res => Forall starts_with_pair (Values_pairs res)) series
   ∧ ∃ results, results_into acc series = Ok results)
  ∨ (¬ Forall (fun res => Forall starts_with_pair (Values_pairs res)) series
     ∧ results_into acc series = Panic).
Proof.
  revert acc. induction series as [|res series IH]; intros acc.
  - left. split; [constructor|by eexists].
  - cbn [results_into]. unfold samples.
    destruct (samples_into_total (Values_pairs res) ∅) as [[Hshape [values ->]]|[Hshape ->]].
    + cbn. destruct (IH (go_append acc
                           {| Metric := Canon.metricName (Metric_labels res);
                              Values := values |}))
        as [[Hall Hok]|[Hall Hpanic]].
      * left. split; [by constructor|done].
      * right. split; [|done]. intros H. apply Hall. by inversion H.
    + right. split; [|done]. intros H. apply Hshape. by inversion H.
Qed.

Lemma Forall_em {A} (P : A -> Prop) (l : list A) :
  (∀ x, P x ∨ ¬ P x) -> Forall P l ∨ ¬ Forall P l.
Proof.
  intros Hem. induction l as [|x l [IH|IH]].
  - left. constructor.
  - destruct (Hem x) as [Hx|Hx]; [left; by constructor|].
    right. intros H. apply Hx. by inversion H.
  - right. intros H. apply IH. by inversion H.
Qed.

Lemma not_Forall_iff_Exists {A} (P : A -> Prop) (l : list A) :
  (∀ x, P x ∨ ¬ P x) -> ¬ Forall P l <-> Exists (fun x => ¬ P x) l.
Proof.
  intros Hem. split.
  - induction l as [|x l IH]; intros H.
    + exfalso. apply H. constructor.
    + destruct (Hem x) as [Hx|Hx]; [|by left].
      right. apply IH. intros Hl. apply H. by constructor.
  - induction 1 as [x l Hx|x l _ IH]; intros H; inversion H; subst; [done|by apply IH].
Qed.

(** X5: the loop over the response results is all or nothing.  It ends
    normally exactly when every entry of every series starts with a number
    followed by a string; a single entry of another shape, in any series,
    makes the whole call panic, whatever came before it.  The loop itself
    never returns an error and never exits the process. *)
Theorem results_all_or_nothing (series : list promSeries) :
  ((∃ results, results_into [] series = Ok results)
   <-> Forall (fun res => Forall starts_with_pair (Values_pairs res)) series)
  ∧ (results_into [] series = Panic
     <-> Exists (fun res => Exists (fun vals => ¬ starts_with_pair vals) (Values_pairs res))
                series)
  ∧ (∀ e, results_into [] series ≠ Err e)
  ∧ results_into [] series ≠ Fatal.
Proof.
  assert (∀ vals, starts_with_pair vals ∨ ¬ starts_with_pair vals) as Hem.
  { intros vals. destruct (sample_cases vals) as [[H _]|[H _]]; [by left|by right]. }
  assert (Exists (fun res => Exists (fun vals => ¬ starts_with_pair vals) (Values_pairs res))
                 series
          <-> ¬ Forall (fun res => Forall starts_with_pair (Values_pairs res)) series) as Hex.
  { rewrite (not_Forall_iff_Exists
               (fun res => Forall starts_with_pair (Values_pairs res)))
      by (intros res; by apply Forall_em).
    split; intros H; eapply Exists_impl; try exact H; intros res Hres; cbn in *.
    - by apply not_Forall_iff_Exists.
    - by apply not_Forall_iff_Exists in Hres. }
  rewrite Hex.
  destruct (results_into_total series []) as [[Hall [results Hok]]|[Hall Hpanic]].
  - rewrite Hok. split_and!; try done. split; [done|by eexists].
  - rewrite Hpanic. split_and!; try done. split; [by intros [? ?]|done].
Qed.

Lemma samples_fold_other (entries : list (float64 * string)) (values : gmap string string)
    (key : string) :
  (∀ t v, (t, v) ∈ entries -> format_f0 t ≠ key) ->
  fold_left (fun values tv => <[format_f0 tv.1 := tv.2]> values) entries values !! key
  = values !! key.
Proof.
  revert values. induction entries as [|[t v] entries IH]; intros values Hne; [done|].
  cbn [fold_left fst snd]. rewrite IH.
  - apply lookup_insert_ne. apply (Hne t v). by left.
  - intros t' v' Hin. apply (Hne t' v'). by right.
Qed.

Lemma samples_fold_size (entries : list (float64 * string)) (values : gmap string string) :
  (size (fold_left (fun values tv => <[format_f0 tv.1 := tv.2]> values) entries values)
   <= size values + length entries)%nat.
Proof.
  revert values. induction entries as [|[t v] entries IH]; intros values; cbn; [lia|].
  etrans; [apply IH|]. rewrite map_size_insert.
  destruct (values !! format_f0 t); cbn; lia.
Qed.

(** X6: when several entries of a series have timestamps that are written
    as the same key, the sample map keeps the value of the last of them;
    so the map can hold fewer samples than the response has entries, never
    more. *)
Theorem samples_last_wins (before after : list (float64 * string))
    (t : float64) (v : string) :
  (∀ t' v', (t', v') ∈ after -> format_f0 t' ≠ format_f0 t) ->
  ∃ values,
    samples (map entry_of (before ++ (t, v) :: after)) = Ok values
    ∧ values !! format_f0 t = Some v
    ∧ (size values <= length (before ++ (t, v) :: after))%nat.
Proof.
  intros Hlast. unfold samples. rewrite samples_into_entries. eexists. split; [done|].
  split.
  - rewrite fold_left_app. cbn [fold_left fst snd].
    rewrite samples_fold_other by done. apply lookup_insert_eq.
  - etrans; [apply samples_fold_size|]. by rewrite map_size_empty.
Qed.

Lemma samples_last_wins_witness :
  ∃ values,
    samples [[JNumber (of_int 10); JString "old"]; [JNumber (of_int 20); JString "2"];
             [JNumber (of_int 10); JString "new"]] = Ok values
    ∧ values !! "10" = Some "new"
    ∧ (size values <= 3)%nat.
Proof.
  assert (∀ t' v', (t', v') ∈ ([] : list (float64 * string))
                   -> format_f0 t' ≠ format_f0 (of_int 10)) as Hlast
    by (intros t' v' H; by apply elem_of_nil in H).
  exact (samples_last_wins [(of_int 10, "old"); (of_int 20, "2")] [] (of_int 10) "new" Hlast).
Defined.

End client_more.

Section client_order.

Lemma handle_response_cases (W : World) (url : string) (response : Response) :
  (StatusCode response ≠ 200 ->
   handle_response W url response
   = Err (RequestFailed ("didn't return 200 OK but " ++ Status response ++ ": " ++ url)))
  ∧ (StatusCode response = 200 ->
     (∀ msg, json_Decode W (Body response) = inl msg ->
        handle_response W url response = Err (DecodeError msg))
     ∧ (∀ resp, json_Decode W (Body response) = inr resp ->
          (ResultType resp ≠ "matrix" ->
           handle_response W url response
           = Err (UnsupportedResultType
                    ("result type isn't of type matrix: " ++ ResultType resp)))
          ∧ (ResultType resp = "matrix" -> Result_list resp = [] ->
             handle_response W url response
             = Err (EmptyResult (YellowString W "no timeseries found")))
          ∧ (ResultType resp = "matrix" -> Result_list resp ≠ [] ->
             handle_response W url response = results_into [] (Result_list resp)))).
Proof.
  unfold handle_response. split.
  - intros Hs. by rewrite decide_True.
  - intros Hs. rewrite decide_False by (intros H; by apply H). split.
    + intros msg ->. done.
    + intros resp ->. split_and!.
      * intros Ht. by rewrite decide_True.
      * intros Ht Hn. rewrite decide_False by (intros H; by apply H).
        by rewrite decide_True.
      * intros Ht Hn. rewrite decide_False by (intros H; by apply H).
        by rewrite decide_False.
Qed.

(** X7: the order in which [Query] looks at a response.  The status is
    checked before the body is decoded, so a status other than 200 gives
    the status error whatever the body holds; the result type is checked
    before the number of series, so a decoded body of another type gives
    the result-type error even when it has no series; and the entries of
    the series are looked at only after these checks have passed. *)
Theorem Query_checks_in_order (W : World) (host : string) (start end_ : time.Time)
    (step : Z) (query : string) (u : URL) (caCert : string) (response : Response) :
  url_Parse W host = inr u ->
  ReadFile W "cert.crt" = inr caCert ->
  NewRequest W (URL_String W (Query_url W u start end_ step query)) = None ->
  RoundTrip W caCert
    {| req_url := URL_String W (Query_url W u start end_ step query);
       Authorization := None |} = inr response ->
  (StatusCode response ≠ 200 ->
   ∃ msg, Query W host start end_ step query = Err (RequestFailed msg))
  ∧ (StatusCode response = 200 ->
     (∀ msg, json_Decode W (Body response) = inl msg ->
        Query W host start end_ step query = Err (DecodeError msg))
     ∧ (∀ resp, json_Decode W (Body response) = inr resp ->
          (ResultType resp ≠ "matrix" ->
           Query W host start end_ step query
           = Err (UnsupportedResultType
                    ("result type isn't of type matrix: " ++ ResultType resp)))
          ∧ (ResultType resp = "matrix" -> Result_list resp = [] ->
             Query W host start end_ step query
             = Err (EmptyResult (YellowString W "no timeseries found")))
          ∧ (ResultType resp = "matrix" -> Result_list resp ≠ [] ->
             Query W host start end_ step query = results_into [] (Result_list resp)))).
Proof.
  intros Hu Hc Hn Hr.
  rewrite (Query_answered W host start end_ step query u caCert response) by done.
  destruct (handle_response_cases W
              (URL_String W (Query_url W u start end_ step query)) response) as [H1 H2].
  split; [|done]. intros Hs. eexists. by apply H1.
Qed.

Lemma Query_checks_in_order_witness :
  Query demo_world "https://h" epoch ten_minutes_later 0 "up"
  = results_into [] (Result_list demo_response).
Proof.
  destruct (Query_checks_in_order demo_world "https://h" epoch ten_minutes_later 0 "up"
              {| Base := "https://h"; Path := EmptyString; RawQuery := EmptyString |}
              "pem" {| StatusCode := 200; Status := "200 OK"; Body := "{}" |}
              eq_refl eq_refl eq_refl eq_refl) as [_ H200].
  destruct (H200 eq_refl) as [_ Hdec].
  destruct (Hdec demo_response eq_refl) as (_ & _ & Hok).
  apply Hok; [reflexivity|discriminate].
Defined.

(** X8: how [IcpQuery] ends.  It returns the error of [url.Parse] when the
    host does not parse and the error of the transport when no response
    arrives; it exits the process when the certificate file cannot be read
    and, unlike [Query], also when the request cannot be built; given a
    response it returns an error exactly for a status other than 200, a
    body that does not decode, a result type other than matrix or an empty
    result list. *)
Theorem IcpQuery_outcomes (W : World) (host token : string) (start end_ : time.Time)
    (step : Z) (query : string) :
  (∀ msg, url_Parse W host = inl msg ->
     IcpQuery W host token start end_ step query = Err (UrlParseError msg))
  ∧ (∀ u msg, url_Parse W host = inr u -> ReadFile W "cert.crt" = inl msg ->
       IcpQuery W host token start end_ step query = Fatal)
  ∧ (∀ u caCert,
       url_Parse W host = inr u -> ReadFile W "cert.crt" = inr caCert ->
       let url := URL_String W (IcpQuery_url W u start end_ step query) in
       let answer := RoundTrip W caCert {| req_url := url; Authorization := Some token |} in
       (∀ msg, NewRequest W url = Some msg ->
          IcpQuery W host token start end_ step query = Fatal)
       ∧ (NewRequest W url = None ->
          (∀ msg, answer = inl msg ->
             IcpQuery W host token start end_ step query = Err (TransportError msg))
          ∧ (∀ response, answer = inr response ->
               ((∃ e, IcpQuery W host token start end_ step query = Err e)
                <-> StatusCode response ≠ 200
                    ∨ (∃ msg, json_Decode W (Body response) = inl msg)
                    ∨ (∃ resp, json_Decode W (Body response) = inr resp
                               ∧ (ResultType resp ≠ "matrix" ∨ Result_list resp = [])))
               ∧ (StatusCode response ≠ 200 ->
                  IcpQuery W host token start end_ step query
                  = Err (RequestFailed ("didn't return 200 OK but " ++ Status response
                                        ++ ": " ++ url)))
               ∧ (∀ results, IcpQuery W host token start end_ step query = Ok results ->
                    ∃ resp, json_Decode W (Body response) = inr resp
                            ∧ length results = length (Result_list resp)
                            ∧ results ≠ [])))).
Proof.
  split_and!.
  - intros msg Hu. unfold IcpQuery. by rewrite Hu.
  - intros u msg Hu Hc. unfold IcpQuery. by rewrite Hu, Hc.
  - intros u caCert Hu Hc url answer. split.
    + intros msg Hn. unfold IcpQuery. rewrite Hu, Hc. fold url. by rewrite Hn.
    + intros Hn. split.
      * intros msg Ha. unfold IcpQuery. rewrite Hu, Hc. fold url. rewrite Hn.
        fold answer. by rewrite Ha.
      * intros response Ha.
        rewrite (IcpQuery_answered W host token start end_ step query u caCert response)
          by done.
        fold url. split_and!.
        -- apply handle_response_error_iff.
        -- intros Hs. unfold handle_response. by rewrite decide_True.
        -- intros results Hok. apply handle_response_ok in Hok as (_ & resp & H & _ & Hl).
           by exists resp.
Qed.

Lemma IcpQuery_outcomes_witness :
  IcpQuery bad_host_world "https://h" "token" epoch ten_minutes_later 0 "up"
  = Err (UrlParseError "missing protocol scheme")
  ∧ IcpQuery offline_world "https://h" "token" epoch ten_minutes_later 0 "up"
    = Err (TransportError "connection refused").
Proof.
  destruct (IcpQuery_outcomes bad_host_world "https://h" "token" epoch ten_minutes_later
              0 "up") as (Hbad & _).
  destruct (IcpQuery_outcomes offline_world "https://h" "token" epoch ten_minutes_later
              0 "up") as (_ & _ & Hoff).
  split; [by apply Hbad|].
  destruct (Hoff {| Base := "https://h"; Path := EmptyString; RawQuery := EmptyString |}
              "pem" eq_refl eq_refl) as (_ & Hsent).
  destruct (Hsent eq_refl) as (Hfail & _). by apply Hfail.
Defined.

Lemma steps_long_bounds (step dur : Z) :
  step <= 0 -> 30 * time.Minute <= dur <= maxInt64 -> 2 <= steps step dur < 2 ^ 29.
Proof. intros Hs [Hd Hmax]. rewrite steps_long by done. by apply steps_float. Qed.

Lemma steps_at_least_one (step dur : Z) : dur <= maxInt64 -> 1 <= steps step dur.
Proof.
  intros Hmax.
  destruct (Z_lt_le_dec 0 step) as [Hs|Hs].
  { rewrite steps_explicit by done. lia. }
  destruct (Z_lt_le_dec dur (15 * time.Minute)) as [Hd|Hd].
  { rewrite steps_short by done. lia. }
  destruct (Z_lt_le_dec dur (30 * time.Minute)) as [Hd'|Hd'].
  { rewrite steps_medium by done. lia. }
  pose proof (steps_long_bounds step dur Hs (conj Hd' Hmax)). lia.
Qed.

Lemma Sub_in_range (t u : time.Time) : minInt64 <= time.Sub t u <= maxInt64.
Proof. unfold time.Sub, minInt64, maxInt64. lia. Qed.

(** X9: the parameters of the request.  Both clients encode the same
    parameters: [query], [start] and [end] as given (the times as decimal
    Unix seconds), and [step] as the decimal of the resolution chosen by
    [steps] for the window, which is always at least 1; each of the four
    replaces whatever the host string carried under that name, and every
    other parameter of the host string is kept. *)
Theorem request_parameters (W : World) (u : URL) (start end_ : time.Time) (step : Z)
    (query : string) :
  ∃ q : gmap string (list string),
    RawQuery (Query_url W u start end_ step query) = Values_Encode W q
    ∧ RawQuery (IcpQuery_url W u start end_ step query) = Values_Encode W q
    ∧ q !! "query" = Some [query]
    ∧ q !! "start" = Some [itoa (time.Unix start)]
    ∧ q !! "end" = Some [itoa (time.Unix end_)]
    ∧ q !! "step" = Some [itoa (steps step (time.Sub end_ start))]
    ∧ 1 <= steps step (time.Sub end_ start)
    ∧ (∀ name, name ∉ ["query"; "start"; "end"; "step"] ->
               q !! name = url_Query W (RawQuery u) !! name).
Proof.
  eexists. split; [reflexivity|]. split; [reflexivity|]. split_and!.
  - by simplify_map_eq.
  - by simplify_map_eq.
  - by simplify_map_eq.
  - by simplify_map_eq.
  - apply steps_at_least_one. apply Sub_in_range.
  - intros name Hname. cbn [with_path RawQuery].
    rewrite !lookup_insert_ne; [done|intros <-; apply Hname; set_solver..].
Qed.

End client_order.

(** * Further properties of steps *)

Section steps_more.

(** X10: the number of sample points.  With no explicit step, the window
    holds fewer than 900 steps of the chosen resolution; from 30 minutes
    on, it holds between 210 and 336 of them. *)
Theorem steps_sample_count (step dur : Z) :
  step <= 0 -> 0 <= dur <= maxInt64 ->
  dur < 900 * time.Second * steps step dur
  ∧ (30 * time.Minute <= dur ->
     210 * time.Second * steps step dur <= dur < 336 * time.Second * steps step dur).
Proof.
  intros Hs [Hd0 Hmax].
  assert (30 * time.Minute <= dur ->
          210 * time.Second * steps step dur <= dur < 336 * time.Second * steps step dur)
    as Hlong.
  { intros Hd. rewrite steps_long by done.
    destruct (steps_float dur (conj Hd Hmax)) as [_ Hnear].
    set (T := F64.to_int (F64.div (time.Minutes dur) F64.c4_2)) in *.
    change (252 * time.Second) with 252000000000 in Hnear.
    change time.Second with 1000000000. change time.Minute with 60000000000 in Hd.
    pose proof (Z.div_mod dur 252000000000 ltac:(lia)) as Hdm.
    pose proof (Z.mod_pos_bound dur 252000000000 ltac:(lia)) as Hmb.
    lia. }
  split; [|done].
  destruct (Z_lt_le_dec dur (15 * time.Minute)) as [Hd|Hd].
  { rewrite steps_short by done. change time.Minute with 60000000000 in Hd.
    change time.Second with 1000000000. lia. }
  destruct (Z_lt_le_dec dur (30 * time.Minute)) as [Hd'|Hd'].
  { rewrite steps_medium by done. change time.Minute with 60000000000 in Hd'.
    change time.Second with 1000000000. lia. }
  specialize (Hlong Hd'). change time.Second with 1000000000 in *.
  pose proof (steps_long_bounds step dur Hs (conj Hd' Hmax)) as Hpos. lia.
Qed.

Lemma steps_sample_count_witness :
  210 * time.Second * steps 0 (120 * time.Minute) <= 120 * time.Minute
  < 336 * time.Second * steps 0 (120 * time.Minute).
Proof.
  assert (0 <= 120 * time.Minute <= maxInt64) as Hrange by (vm_compute; split; congruence).
  assert (30 * time.Minute <= 120 * time.Minute) as Hlong by (vm_compute; congruence).
  exact (proj2 (steps_sample_count 0 (120 * time.Minute) ltac:(lia) Hrange) Hlong).
Defined.

End steps_more.

(** * The keys of the sample maps, written and read back *)

Section key_round_trip.
Import F64.

Lemma of_uint_acc_ge (d : Decimal.uint) (acc : positive) :
  Z.pos acc <= Z.pos (Pos.of_uint_acc d acc).
Proof.
  revert acc. induction d as [|d IH|d IH|d IH|d IH|d IH|d IH|d IH|d IH|d IH|d IH];
    intros acc; cbn [Pos.of_uint_acc]; [lia|..];
    (etrans; [|apply IH]); lia.
Qed.

Lemma ParseUint_loop_digit (c : ascii) (k n : Z) (rest : string) :
  strconv.digit_of c = Some k ->
  10 * n + k <= strconv.maxUint64 ->
  strconv.ParseUint_loop n (String c rest) = strconv.ParseUint_loop (10 * n + k) rest.
Proof.
  intros Hc Hle. cbn [strconv.ParseUint_loop]. rewrite Hc.
  by rewrite (proj2 (Z.ltb_ge _ _) Hle).
Qed.

Ltac parse_digit IH d k :=
  match goal with
  | H : Z.pos (Pos.of_uint_acc d ?acc') <= _ |- _ =>
      pose proof (of_uint_acc_ge d acc') as Hge;
      rewrite (ParseUint_loop_digit _ k _ _) by (reflexivity || lia);
      rewrite <- (IH acc') by done; f_equal; lia
  end.

Lemma ParseUint_loop_acc (d : Decimal.uint) (acc : positive) :
  Z.pos (Pos.of_uint_acc d acc) <= strconv.maxUint64 ->
  strconv.ParseUint_loop (Z.pos acc) (NilEmpty.string_of_uint d)
  = Some (Z.pos (Pos.of_uint_acc d acc)).
Proof.
  revert acc. induction d as [|d IH|d IH|d IH|d IH|d IH|d IH|d IH|d IH|d IH|d IH];
    intros acc Hmax; cbn [Pos.of_uint_acc NilEmpty.string_of_uint] in *; [done|..].
  - parse_digit IH d 0.
  - parse_digit IH d 1.
  - parse_digit IH d 2.
  - parse_digit IH d 3.
  - parse_digit IH d 4.
  - parse_digit IH d 5.
  - parse_digit IH d 6.
  - parse_digit IH d 7.
  - parse_digit IH d 8.
  - parse_digit IH d 9.
Qed.

Lemma ParseUint_loop_zero (d : Decimal.uint) :
  Z.of_N (Pos.of_uint d) <= strconv.maxUint64 ->
  strconv.ParseUint_loop 0 (NilEmpty.string_of_uint d) = Some (Z.of_N (Pos.of_uint d)).
Proof.
  induction d as [|d IH|d IH|d IH|d IH|d IH|d IH|d IH|d IH|d IH|d IH];
    intros Hmax; cbn [Pos.of_uint NilEmpty.string_of_uint Z.of_N] in *; [done|..].
  - rewrite (ParseUint_loop_digit _ 0 _ _) by (reflexivity || (unfold strconv.maxUint64; lia)).
    by apply IH.
  - rewrite (ParseUint_loop_digit _ 1 _ _) by (reflexivity || (unfold strconv.maxUint64; lia)).
    by apply (ParseUint_loop_acc d 1).
  - rewrite (ParseUint_loop_digit _ 2 _ _) by (reflexivity || (unfold strconv.maxUint64; lia)).
    by apply (ParseUint_loop_acc d 2).
  - rewrite (ParseUint_loop_digit _ 3 _ _) by (reflexivity || (unfold strconv.maxUint64; lia)).
    by apply (ParseUint_loop_acc d 3).
  - rewrite (ParseUint_loop_digit _ 4 _ _) by (reflexivity || (unfold strconv.maxUint64; lia)).
    by apply (ParseUint_loop_acc d 4).
  - rewrite (ParseUint_loop_digit _ 5 _ _) by (reflexivity || (unfold strconv.maxUint64; lia)).
    by apply (ParseUint_loop_acc d 5).
  - rewrite (ParseUint_loop_digit _ 6 _ _) by (reflexivity || (unfold strconv.maxUint64; lia)).
    by apply (ParseUint_loop_acc d 6).
  - rewrite (ParseUint_loop_digit _ 7 _ _) by (reflexivity || (unfold strconv.maxUint64; lia)).
    by apply (ParseUint_loop_acc d 7).
  - rewrite (ParseUint_loop_digit _ 8 _ _) by (reflexivity || (unfold strconv.maxUint64; lia)).
    by apply (ParseUint_loop_acc d 8).
  - rewrite (ParseUint_loop_digit _ 9 _ _) by (reflexivity || (unfold strconv.maxUint64; lia)).
    by apply (ParseUint_loop_acc d 9).
Qed.

Lemma ParseUint_to_uint (p : positive) :
  Z.pos p <= strconv.maxUint64 ->
  strconv.ParseUint (NilEmpty.string_of_uint (Pos.to_uint p)) = Some (Z.pos p).
Proof.
  intros Hmax.
  pose proof (DecimalPos.Unsigned.of_to p) as Hof.
  pose proof (DecimalPos.Unsigned.to_uint_nonnil p) as Hnn.
  assert (strconv.ParseUint (NilEmpty.string_of_uint (Pos.to_uint p))
          = strconv.ParseUint_loop 0 (NilEmpty.string_of_uint (Pos.to_uint p))) as ->
    by (destruct (Pos.to_uint p); done).
  rewrite ParseUint_loop_zero; rewrite Hof; done.
Qed.

Lemma string_of_uint_first (d : Decimal.uint) :
  d ≠ Decimal.Nil ->
  ∃ c rest, NilEmpty.string_of_uint d = String c rest
            ∧ Ascii.eqb c "+" = false ∧ Ascii.eqb c "-" = false.
Proof. destruct d; [done|..]; intros _; by eexists _, _. Qed.

Lemma itoa_pos (p : positive) :
  itoa (Z.pos p) = NilEmpty.string_of_uint (Pos.to_uint p).
Proof.
  unfold itoa. cbn [Z.to_int NilZero.string_of_int]. unfold NilZero.string_of_uint.
  pose proof (DecimalPos.Unsigned.to_uint_nonnil p). by destruct (Pos.to_uint p).
Qed.

Lemma itoa_neg (p : positive) : itoa (Z.neg p) = String "-" (itoa (Z.pos p)).
Proof.
  rewrite itoa_pos. unfold itoa. cbn [Z.to_int NilZero.string_of_int].
  unfold NilZero.string_of_uint.
  pose proof (DecimalPos.Unsigned.to_uint_nonnil p). by destruct (Pos.to_uint p).
Qed.

(** Decimal text written by [%d] is read back by [ParseInt] as the same
    [int64]. *)
Lemma ParseInt_itoa (z : Z) :
  minInt64 <= z <= maxInt64 -> strconv.ParseInt (itoa z) = z.
Proof.
  unfold minInt64, maxInt64. intros Hz. destruct z as [|p|p].
  - vm_compute. reflexivity.
  - rewrite itoa_pos.
    destruct (string_of_uint_first (Pos.to_uint p)
                (DecimalPos.Unsigned.to_uint_nonnil p)) as (c & rest & Hs & Hplus & Hminus).
    pose proof (ParseUint_to_uint p) as Hparse. rewrite Hs in *.
    unfold strconv.ParseInt. rewrite Hplus, Hminus. cbn [orb negb andb].
    rewrite Hparse by (unfold strconv.maxUint64; lia). cbv zeta.
    by rewrite (proj2 (Z.leb_gt _ _)) by lia.
  - rewrite itoa_neg, itoa_pos. unfold strconv.ParseInt.
    change (Ascii.eqb "-" "-") with true. change (Ascii.eqb "-" "+") with false.
    cbn [orb negb andb]. rewrite ParseUint_to_uint by (unfold strconv.maxUint64; lia).
    cbv zeta. by rewrite (proj2 (Z.ltb_ge _ _)) by lia.
Qed.

Lemma binary_round_aux_exact_signed (s : bool) (p : positive) (e : Z) :
  normal p -> -1074 <= e <= 971 ->
  binary_round_aux prec emax s (Z.pos p) e loc_Exact = S754_finite s p e.
Proof.
  intros Hn He.
  assert (Z.pos (digits2_pos p) = 53) as Hd by (by apply digits_unique).
  unfold binary_round_aux, shr_fexp. cbn [Zdigits2]. rewrite Hd.
  rewrite fexp_normal by lia. replace (53 + e - 53 - e) with 0 by lia.
  cbn [shr shr_record_of_loc shr_m loc_of_shr_record round_nearest_even Zdigits2].
  rewrite Hd. rewrite fexp_normal by lia. replace (53 + e - 53 - e) with 0 by lia.
  cbn [shr shr_record_of_loc shr_m].
  assert ((e <=? emax - prec) = true) as -> by (apply Z.leb_le; unfold emax, prec; lia).
  done.
Qed.

Lemma binary_round_small (s : bool) (p : positive) :
  Z.pos p < 2 ^ 53 ->
  ∃ m e, binary_round prec emax s p 0 = S754_finite s m e
         ∧ -52 <= e <= 0 ∧ Z.pos m = Z.pos p * 2 ^ (- e).
Proof.
  intros Hz. unfold binary_round.
  pose proof (digits_bounds p) as Hp.
  set (d := Z.pos (digits2_pos p)) in *.
  assert (1 <= d <= 53) as Hd.
  { split; [unfold d; lia|]. destruct (Z_le_gt_dec d 53) as [|Hgt]; [done|].
    assert (2 ^ 53 <= 2 ^ (d - 1)) by (apply Z.pow_le_mono_r; lia). lia. }
  rewrite fexp_normal by lia. unfold shl_align.
  replace (d + 0 - 53 - 0) with (d - 53) by lia.
  destruct (d - 53) as [|k|k] eqn:Hk; [|lia|].
  - assert (d = 53) as Hd53 by lia. rewrite Hd53 in *.
    rewrite binary_round_aux_exact_signed by (unfold normal; lia).
    exists p, 0. split; [done|]. split; [lia|]. cbn. lia.
  - assert (Z.pos k = 53 - d) as Hk' by lia.
    assert (normal (Pos.iter xO p k)) as Hn.
    { unfold normal. rewrite pos_iter_xO, Hk'.
      assert (2 ^ 52 = 2 ^ (d - 1) * 2 ^ (53 - d)) as ->
        by (rewrite <- pow2_split by lia; f_equal; lia).
      assert (2 ^ 53 = 2 ^ d * 2 ^ (53 - d)) as ->
        by (rewrite <- pow2_split by lia; f_equal; lia).
      assert (0 < 2 ^ (53 - d)) by (apply Z.pow_pos_nonneg; lia). nia. }
    replace (d + 0 - 53) with (Z.neg k) by lia.
    rewrite binary_round_aux_exact_signed by (done || lia).
    eexists _, _. split; [done|]. split; [lia|].
    rewrite pos_iter_xO. reflexivity.
Qed.

Lemma round_half_even_integer (m : positive) (e n : Z) :
  e <= 0 -> Z.pos m = n * 2 ^ (- e) -> round_half_even m e = n.
Proof.
  intros He Hm. unfold round_half_even.
  destruct (Z.leb_spec 0 e) as [He0|He0].
  - assert (e = 0) as -> by lia. cbn in Hm. cbn. lia.
  - cbv zeta. assert (0 < 2 ^ (- e)) as Hpow by (apply Z.pow_pos_nonneg; lia).
    rewrite Hm, Z.div_mul, Z.mod_mul by lia.
    by rewrite (proj2 (Z.compare_lt_iff _ _)) by lia.
Qed.

Lemma format_f0_of_int (z : Z) :
  - 2 ^ 53 < z < 2 ^ 53 -> format_f0 (of_int z) = itoa z.
Proof.
  intros Hz. unfold of_int, binary_normalize. destruct z as [|p|p].
  - reflexivity.
  - destruct (binary_round_small false p ltac:(lia)) as (m & e & -> & He & Hm).
    cbn [format_f0 sign_string]. by rewrite (round_half_even_integer m e (Z.pos p)) by lia.
  - destruct (binary_round_small true p ltac:(lia)) as (m & e & -> & He & Hm).
    cbn [format_f0 sign_string]. rewrite (round_half_even_integer m e (Z.pos p)) by lia.
    by rewrite itoa_neg.
Qed.

(** X11: the key of a sample, written and read back.  For a timestamp that
    is a whole number of seconds below [2^53] in magnitude, the key that
    the clients store ([%.f] of the [float64]) is the decimal text of the
    number, and the integer that [csvWriter] reads back from that key to
    render the time of the row is the timestamp itself. *)
Theorem key_round_trip (z : Z) :
  - 2 ^ 53 < z < 2 ^ 53 ->
  format_f0 (of_int z) = itoa z
  ∧ strconv.ParseInt (format_f0 (of_int z)) = z
  ∧ ∀ (localString : Z -> string) (results : list Result),
      ∃ cells, csv_row localString results (format_f0 (of_int z))
               = localString z ++ cells.
Proof.
  intros Hz. rewrite format_f0_of_int by done.
  assert (strconv.ParseInt (itoa z) = z) as Hparse.
  { apply ParseInt_itoa. unfold minInt64, maxInt64.
    change (2 ^ 53) with 9007199254740992 in Hz.
    change (2 ^ 63) with 9223372036854775808. lia. }
  split; [done|]. split; [done|].
  intros localString results. unfold csv_row. rewrite Hparse. by eexists.
Qed.

Lemma key_round_trip_witness :
  format_f0 (of_int 1600000000) = "1600000000"
  ∧ strconv.ParseInt (format_f0 (of_int 1600000000)) = 1600000000.
Proof.
  assert (- 2 ^ 53 < 1600000000 < 2 ^ 53) as Hz by (vm_compute; split; congruence).
  destruct (key_round_trip 1600000000 Hz) as (Hfmt & Hparse & _).
  split; [|exact Hparse]. rewrite Hfmt. vm_compute. reflexivity.
Defined.

End key_round_trip.

(** * Further properties of metricName *)

Section canon_more.
Import Canon CanonSpec.

Lemma elem_of_others (m : gmap string string) (k v : string) :
  (k, v) ∈ others m <-> k ≠ name_key ∧ m !! k = Some v.
Proof.
  unfold others. rewrite list_elem_of_filter. cbn. by rewrite elem_of_map_to_list.
Qed.

Lemma others_agree (m1 m2 : gmap string string) :
  (∀ k, k ≠ name_key -> m1 !! k = m2 !! k) -> others m1 ≡ₚ others m2.
Proof.
  intros Hagree. apply NoDup_Permutation.
  - apply NoDup_filter, NoDup_map_to_list.
  - apply NoDup_filter, NoDup_map_to_list.
  - intros [k v]. rewrite !elem_of_others. split; intros [Hk Hv]; split; try done.
    + by rewrite <- Hagree.
    + by rewrite Hagree.
Qed.

(** X12: the base name is a prefix and nothing else.  For a label set with
    at least one label besides the reserved one, setting the reserved
    label to [v] gives [v] followed by the name of the label set without
    the reserved label: the braces part depends on the other labels only. *)
Theorem metricName_base_prefix (m : gmap string string) (v : string) :
  delete name_key m ≠ ∅ ->
  metricName (<[name_key := v]> m) = v ++ metricName (delete name_key m).
Proof.
  intros Hne. rewrite !metricName_canonical. unfold canonicalize.
  destruct (decide (<[name_key := v]> m = ∅)) as [He|_];
    [by apply insert_non_empty in He|].
  destruct (decide (delete name_key m = ∅)) as [|_]; [done|].
  assert (others (<[name_key := v]> m) ≡ₚ others (delete name_key m)) as Hperm.
  { apply others_agree. intros k Hk.
    by rewrite lookup_insert_ne, lookup_delete_ne. }
  assert (others (delete name_key m) ≠ []) as Hothers.
  { intros Hnil. apply Hne. apply map_empty. intros k.
    destruct (delete name_key m !! k) as [x|] eqn:Hk; [|done].
    pose proof (others_nil_inv _ k x Hnil Hk) as ->.
    by rewrite lookup_delete_eq in Hk. }
  assert (others (<[name_key := v]> m) ≠ []) as Hothers'.
  { intros Hnil. rewrite Hnil in Hperm. by apply Permutation_nil in Hperm. }
  destruct (decide (others (<[name_key := v]> m) = [])) as [|_]; [done|].
  destruct (decide (others (delete name_key m) = [])) as [|_]; [done|].
  unfold base. rewrite lookup_insert_eq, lookup_delete_eq. cbn [default].
  unfold fragments. by rewrite (sortStrings_proper _ _ (fmap_Permutation _ _ _ Hperm)).
Qed.

Lemma metricName_base_prefix_witness :
  metricName (<[name_key := "down"]> up_labels)
  = "down" ++ metricName (delete name_key up_labels).
Proof.
  apply metricName_base_prefix. intros H.
  assert (delete name_key up_labels !! "job" = None) as Hjob by (by rewrite H).
  vm_compute in Hjob. discriminate Hjob.
Defined.

End canon_more.

(** * Further properties of the axis and of the plot *)

Section axis_more.

Lemma all_keys_perm (results1 results2 : list Result) :
  results1 ≡ₚ results2 -> all_keys results1 = all_keys results2.
Proof.
  intros Hperm. apply set_eq. intros tm. rewrite !elem_of_all_keys.
  split; intros (result & Hin & Hsome); exists result; split; try done.
  - by rewrite <- Hperm.
  - by rewrite Hperm.
Qed.

(** X13: the time axis does not depend on the order of the series.
    Listing the same series in another order leaves the sorted list of
    times unchanged: the table has the same rows in the same order (only
    its columns move) and the plot has the same [t] list. *)
Theorem axis_order_of_series (results1 results2 : list Result) :
  results1 ≡ₚ results2 ->
  axis results1 = axis results2
  ∧ ∀ o1 o2, valid_orders results1 o1 -> valid_orders results2 o2 ->
             times_of (times_visit o1) = times_of (times_visit o2).
Proof.
  intros Hperm.
  assert (axis results1 = axis results2) as Hax
    by (unfold axis; by rewrite (all_keys_perm _ _ Hperm)).
  split; [done|]. intros o1 o2 H1 H2.
  by rewrite (times_of_axis _ _ H1), (times_of_axis _ _ H2).
Qed.

Lemma axis_order_of_series_witness :
  axis [series_b; series_a] = axis [series_a; series_b].
Proof.
  apply (axis_order_of_series [series_b; series_a] [series_a; series_b]).
  apply Permutation_swap.
Defined.

(** X14: unlike [csvWriter], [matplotlibWriter] always writes something
    for a list of results that is not empty: when no series has a sample
    it still writes an empty [t] list, and an empty list and a plot
    statement for every series. *)
Theorem matplotlibWriter_without_samples (o : RangeOrders) (w : Writer)
    (results : list Result) :
  valid_orders results o -> results ≠ [] ->
  (matplotlibWriter_in o w results).1 ≠ w
  ∧ ((∀ result, result ∈ results -> Values result = ∅) ->
     matplotlibWriter_in o w results
     = (w ++ "t = []" ++ newline
          ++ concat_all
               (imap (fun i _ => "s" ++ itoa (Z.of_nat i) ++ " = []" ++ newline
                                 ++ "plot.plot(t, s" ++ itoa (Z.of_nat i) ++ ")" ++ newline)
                     results), None)).
Proof.
  intros Hvalid Hne. rewrite matplotlibWriter_in_spec by done. cbn [fst]. split.
  - intros H. apply string_app_eq_self in H. discriminate H.
  - intros Hempty. apply axis_nil_iff in Hempty. rewrite Hempty.
    do 2 f_equal.
Qed.

Lemma matplotlibWriter_without_samples_witness :
  matplotlibWriter_in (canonical_orders [{| Metric := "a"; Values := ∅ |}]) EmptyString
    [{| Metric := "a"; Values := ∅ |}]
  = ("t = []" ++ newline ++ "s0 = []" ++ newline ++ "plot.plot(t, s0)" ++ newline, None).
Proof.
  destruct (matplotlibWriter_without_samples
              (canonical_orders [{| Metric := "a"; Values := ∅ |}]) EmptyString
              [{| Metric := "a"; Values := ∅ |}] (canonical_orders_valid _)
              ltac:(done)) as [_ H].
  rewrite H.
  - vm_compute. reflexivity.
  - intros result Hin. apply list_elem_of_singleton in Hin. by subst.
Defined.

End axis_more.
